(** * Quiz play session: the state machine of [QuizPlayer] and its scoring rule

    Shallow embedding of the quiz player component (the React component
    [QuizPlayer] of the client) and of the time-limit handling of the
    quiz creation endpoint of the server.

    Conventions of the embedding:
    - JavaScript numbers are IEEE 754 doubles.  Seconds, indices and scores
      are integers far below 2^53, on which the additions and subtractions
      of the component are exact: they are integers ([Z]).  The quotient and
      the product inside the scoring rule are rounded to the nearest double,
      ties to even ([JS.div], [JS.mul]); a double is the rational ([Q]) it
      denotes, with 53 significant bits (the values of the rule are far from
      both ends of the exponent range, which is left unbounded), and
      [Math.round] is the floor of that rational plus one half;
    - [string | null] and the result of an optional chain [a?.b] are
      [option]s; [null] and [undefined] are both [None], and [===] between
      the two sides is written out in [strict_eq];
    - each [useState] cell is a field of [Session]; a handler is a function
      [Session -> Session] that returns the state after its setters have
      been applied.  A handler reads the cells of the render that created
      it: for the handlers of the current render these are the committed
      state ([step], [dispatch]); the answer buttons of a question card that
      is still animating out belong to an earlier render ([handleAnswerFrom],
      [react]). *)

From Stdlib Require Import ZArith QArith Qround Qpower List String Bool Btauto
  Lia Lqa.
Import ListNotations.

Open Scope Z_scope.

(** ** JavaScript operators used by the component *)

Module JS.

(** [Math.round x]: the nearest integer, a tie going up. *)
Definition Math_round (x : Q) : Z := Qfloor (x + (1 # 2)).

(** *** Double precision

    A finite double is a sign, a 53-bit significand and a power of two; the
    result of an operation is the double nearest to the exact result, and
    of two nearest ones the one whose significand is even. *)

(** [2^e], also for a negative [e]. *)
Definition pow2 (e : Z) : Q := Qpower 2 e.

(** The exponent of a positive [x]: [2^e <= x < 2^(e+1)]. *)
Definition exponent (x : Q) : Z :=
  let e := Z.log2 (Qnum x) - Z.log2 (Zpos (Qden x)) in
  if Qle_bool (pow2 e) x then e else e - 1.

(** The integer nearest to [x], a tie going to the even one. *)
Definition nearestEven (x : Q) : Z :=
  let f := Qfloor x in
  match 2 * (Qnum x - f * Zpos (Qden x)) ?= Zpos (Qden x) with
  | Lt => f
  | Gt => f + 1
  | Eq => if Z.even f then f else f + 1
  end.

(** The double nearest to a positive [x]: its significand, scaled to lie
    between 2^52 and 2^53, is rounded to an integer. *)
Definition roundPositive (x : Q) : Q :=
  let ulp := pow2 (exponent x - 52) in
  inject_Z (nearestEven (x / ulp)) * ulp.

(** The double nearest to [x], ties to even. *)
Definition double (x : Q) : Q :=
  match Qnum x with
  | Z0 => 0
  | Zpos _ => roundPositive x
  | Zneg _ => - roundPositive (- x)
  end.

(** [a / b] on doubles: the exact quotient, rounded.  The component never
    divides by 0 (JavaScript would give an infinity or NaN, [Qdiv] gives 0). *)
Definition div (a b : Q) : Q := double (a / b).

(** [a * b] on doubles: the exact product, rounded. *)
Definition mul (a b : Q) : Q := double (a * b).

(** [v || d] for a numeric [v] that may be missing: [undefined], [null]
    and [0] are falsy and select [d]. *)
Definition or_default (v : option Z) (d : Z) : Z :=
  match v with
  | Some n => if n =? 0 then d else n
  | None => d
  end.

(** [arr[i]]: [undefined] outside the array. *)
Definition index {A : Type} (arr : list A) (i : Z) : option A :=
  if i <? 0 then None else nth_error arr (Z.to_nat i).

(** [arr.length]. *)
Definition length {A : Type} (arr : list A) : Z := Z.of_nat (List.length arr).

(** [a === b] where [a : string | null] and [b : string | undefined]:
    [null === undefined] is false, so only two equal strings agree. *)
Definition strict_eq (a b : option string) : bool :=
  match a, b with
  | Some x, Some y => String.eqb x y
  | _, _ => false
  end.

(** Optional chaining [a?.f]. *)
Definition chain {A B : Type} (a : option A) (f : A -> option B) : option B :=
  match a with
  | Some x => f x
  | None => None
  end.

End JS.

Notation "a ?> f" := (JS.chain a f) (at level 50, left associativity).

(** ** Data model (types.ts) *)

Record Question : Type := mkQuestion {
  question_id : option Z;
  question_text : string;
  option_a : string;
  option_b : string;
  option_c : string;
  option_d : string;
  correct_option : string;
  time_limit : Z
}.

Record Quiz : Type := mkQuiz {
  quiz_id : Z;
  title : string;
  description : string;
  topic : string;
  created_at : string;
  questions : option (list Question)
}.

(** ** Session state: the [useState] cells of [QuizPlayer] *)

Record Session : Type := mkSession {
  quiz : option Quiz;
  currentQuestionIdx : Z;          (* -1 is lobby *)
  score : Z;
  timeLeft : Z;
  selectedAnswer : option string;
  showResult : bool;
  isGameOver : bool
}.

Definition setCurrentQuestionIdx (v : Z) (s : Session) : Session :=
  mkSession (quiz s) v (score s) (timeLeft s) (selectedAnswer s)
            (showResult s) (isGameOver s).

Definition setScore (v : Z) (s : Session) : Session :=
  mkSession (quiz s) (currentQuestionIdx s) v (timeLeft s) (selectedAnswer s)
            (showResult s) (isGameOver s).

Definition setTimeLeft (v : Z) (s : Session) : Session :=
  mkSession (quiz s) (currentQuestionIdx s) (score s) v (selectedAnswer s)
            (showResult s) (isGameOver s).

Definition setSelectedAnswer (v : option string) (s : Session) : Session :=
  mkSession (quiz s) (currentQuestionIdx s) (score s) (timeLeft s) v
            (showResult s) (isGameOver s).

Definition setShowResult (v : bool) (s : Session) : Session :=
  mkSession (quiz s) (currentQuestionIdx s) (score s) (timeLeft s)
            (selectedAnswer s) v (isGameOver s).

Definition setIsGameOver (v : bool) (s : Session) : Session :=
  mkSession (quiz s) (currentQuestionIdx s) (score s) (timeLeft s)
            (selectedAnswer s) (showResult s) v.

(** The state a freshly mounted player holds once [q] has been fetched. *)
Definition initial (q : option Quiz) : Session :=
  mkSession q (-1) 0 0 None false false.

(** [quiz?.questions?.[i]] *)
Definition questionAt (s : Session) (i : Z) : option Question :=
  quiz s ?> questions ?> (fun qs => JS.index qs i).

(** [quiz?.questions?.[currentQuestionIdx]] *)
Definition currentQuestion (s : Session) : option Question :=
  questionAt s (currentQuestionIdx s).

(** ** Scoring rule *)

(** [Math.round(1000 * (timeLeft / limit)) + 500], computed as the code
    computes it: the quotient is rounded to a double, then the product.  The
    component never divides by 0 (see [points]). *)
Definition scoreFormula (remaining limit : Z) : Z :=
  JS.Math_round (JS.mul 1000 (JS.div (inject_Z remaining) (inject_Z limit)))
  + 500.


(** The points of [handleAnswer]:
    [Math.round(1000 * (timeLeft / (currentQuestion?.time_limit || 20))) + 500] *)
Definition points (s : Session) : Z :=
  scoreFormula (timeLeft s)
               (JS.or_default (option_map time_limit (currentQuestion s)) 20).

(** ** Handlers *)

Definition startQuiz (s : Session) : Session :=
  setTimeLeft (JS.or_default (option_map time_limit (questionAt s 0)) 20)
              (setCurrentQuestionIdx 0 s).

(** [handleAnswer] as created by the render of [c] and called when the
    committed state is [s].  The guard, the current question and the time
    left are the constants of that render; [setSelectedAnswer] and
    [setShowResult] store fixed values and [setScore(prev => prev + points)]
    adds to the committed score. *)
Definition handleAnswerFrom (c : Session) (option : option string)
           (s : Session) : Session :=
  if showResult c then s
  else
    let s' := setShowResult true (setSelectedAnswer option s) in
    if JS.strict_eq option (option_map correct_option (currentQuestion c))
    then setScore (score s + points c) s'
    else s'.

(** [handleAnswer] called from the render of the committed state, as the
    timer effect and the buttons of the current view do. *)
Definition handleAnswer (option : option string) (s : Session) : Session :=
  handleAnswerFrom s option s.

(** In the advancing branch [quiz.questions[nextIdx].time_limit] is read
    after [setCurrentQuestionIdx(nextIdx)] has been issued; when that element
    is missing the read throws and only the first setter has taken effect.
    As [nextIdx] is below the length, this takes an index below -1. *)
Definition nextQuestion (s : Session) : Session :=
  match quiz s ?> questions with
  | None => s
  | Some qs =>
      if currentQuestionIdx s <? JS.length qs - 1 then
        let nextIdx := currentQuestionIdx s + 1 in
        match JS.index qs nextIdx with
        | Some q =>
            setShowResult false
              (setSelectedAnswer None
                 (setTimeLeft (time_limit q)
                    (setCurrentQuestionIdx nextIdx s)))
        | None => setCurrentQuestionIdx nextIdx s
        end
      else setIsGameOver true s
  end.

(** ** The countdown effect *)

(** First condition of the effect: an interval is running. *)
Definition timerArmed (s : Session) : bool :=
  (0 <=? currentQuestionIdx s) && negb (showResult s) && negb (isGameOver s)
  && (0 <? timeLeft s).

(** Second condition of the effect: the countdown has run out. *)
Definition timeoutDue (s : Session) : bool :=
  (timeLeft s =? 0) && (0 <=? currentQuestionIdx s) && negb (showResult s)
  && negb (isGameOver s).

(** The interval callback [setTimeLeft(prev => prev - 1)]. *)
Definition countdown (s : Session) : Session :=
  setTimeLeft (timeLeft s - 1) s.

(** The effect body, run after a render in which one of [timeLeft],
    [currentQuestionIdx], [showResult], [isGameOver] has changed: it either
    (re)arms the interval, or submits the timeout answer [handleAnswer(null)]. *)
Definition timerEffect (s : Session) : Session :=
  if timerArmed s then s
  else if timeoutDue s then handleAnswer None s
  else s.

(** One elapsed second: the interval fires only while it is armed, and the
    effect runs on the state it leaves. *)
Definition tick (s : Session) : Session :=
  if timerArmed s then timerEffect (countdown s) else s.

(** ** Phases and what each rendered view offers *)

Inductive Phase : Type := Lobby | QuestionPhase | Result | GameOver.

(** The phase is not stored: the render function tells the phases apart, in
    this order, by [currentQuestionIdx === -1], [isGameOver], [showResult]. *)
Definition phase (s : Session) : Phase :=
  if currentQuestionIdx s =? -1 then Lobby
  else if isGameOver s then GameOver
  else if showResult s then Result
  else QuestionPhase.

Inductive View : Type :=
| Loading
| LobbyView
| GameOverView
| QuestionView (q : Question)
| ResultView (q : Question)
| RenderError.      (* [quiz.questions![currentQuestionIdx]] is undefined *)

Definition render (s : Session) : View :=
  match quiz s with
  | None => Loading
  | Some _ =>
      match phase s with
      | Lobby => LobbyView
      | GameOver => GameOverView
      | QuestionPhase =>
          match currentQuestion s with
          | Some q => QuestionView q
          | None => RenderError
          end
      | Result =>
          match currentQuestion s with
          | Some q => ResultView q
          | None => RenderError
          end
      end
  end.

(** Operations of the session. *)
Inductive Op : Type :=
| Start
| Tick
| SubmitAnswer (option : option string)
| NextQuestion.

(** An operation followed by the effect that the re-render triggers. *)
Definition step (o : Op) (s : Session) : Session :=
  match o with
  | Start => timerEffect (startQuiz s)
  | Tick => tick s
  | SubmitAnswer a => timerEffect (handleAnswer a s)
  | NextQuestion => timerEffect (nextQuestion s)
  end.

Fixpoint run (ops : list Op) (s : Session) : Session :=
  match ops with
  | [] => s
  | o :: rest => run rest (step o s)
  end.

(** The four answer buttons of the question view. *)
Definition answerButtons : list string := ["A"; "B"; "C"; "D"]%string.

(** Which operations the view of the committed state can trigger: the lobby
    has the start button, the question view the four answer buttons, the
    result view the next button; the game-over view only navigates away or
    reloads the page.  The interval callback does not depend on the view.
    The buttons of a question card that is still on screen while it animates
    out are not part of this view: they are the subject of [react]. *)
Definition offered (v : View) (o : Op) : bool :=
  match v, o with
  | _, Tick => true
  | LobbyView, Start => true
  | QuestionView _, SubmitAnswer (Some a) =>
      existsb (String.eqb a) answerButtons
  | ResultView _, NextQuestion => true
  | _, _ => false
  end.

(** An operation arriving through the view of the committed state. *)
Definition dispatch (o : Op) (s : Session) : Session :=
  if offered (render s) o then step o s else s.

(** The phase in which the specification declares an operation valid. *)
Definition validIn (p : Phase) (o : Op) : Prop :=
  match o with
  | Start => p = Lobby
  | Tick | SubmitAnswer _ => p = QuestionPhase
  | NextQuestion => p = Result
  end.

(** ** Quiz creation (server): the stored time limit *)

(** [q.time_limit || 20], the value bound to the [time_limit] column by the
    creation endpoint; the request body may omit the field. *)
Definition storedTimeLimit (submitted : option Z) : Z :=
  JS.or_default submitted 20.

(** The seed rows are inserted without a [time_limit]; the column default
    [time_limit INTEGER DEFAULT 20] applies. *)
Definition seedTimeLimit : Z := 20.

(** ** Example quizzes *)

Definition sampleQuestion (correct : string) (limit : Z) : Question :=
  mkQuestion None "?" "a" "b" "c" "d" correct limit.

Definition quizOf (qs : list Question) : Quiz :=
  mkQuiz 1 "Quiz" "" "General" "" (Some qs).

(** Two questions, 20 seconds each, correct options B and C. *)
Definition twoQuestions : Quiz := quizOf [sampleQuestion "B" 20; sampleQuestion "C" 20].

Definition emptyQuiz : Quiz := quizOf [].


(** ** Auxiliary notions used in the statements *)

(** Whenever there is a current question, the time shown is either within
    [0, limit] or equal to the limit, where the limit is the one the scoring
    rule divides by. *)
Definition timeInRange (s : Session) : Prop :=
  forall cq : Question,
    currentQuestion s = Some cq ->
    let d := JS.or_default (Some (time_limit cq)) 20 in
    0 <= timeLeft s <= d \/ timeLeft s = d.

Definition sound (s : Session) : Prop := 0 <= score s /\ timeInRange s.

(** ** What the result view and the footer show *)



(** The caption of the button of the result card:
    [currentQuestionIdx < quiz.questions!.length - 1 ? t.nextQuestion : t.showResults]. *)
Inductive Caption : Type := CaptionNextQuestion | CaptionShowResults.

Definition nextCaption (s : Session) (qs : list Question) : Caption :=
  if currentQuestionIdx s <? JS.length qs - 1
  then CaptionNextQuestion else CaptionShowResults.

(** The width, in percent, the progress bar animates to:
    [((currentQuestionIdx + 1) / quiz.questions!.length) * 100]. *)
Definition progressWidth (s : Session) (qs : list Question) : Q :=
  (inject_Z (currentQuestionIdx s + 1) / inject_Z (JS.length qs)) * 100.

(** ** Sessions driven through the rendered view *)

Fixpoint runUi (ops : list Op) (s : Session) : Session :=
  match ops with
  | [] => s
  | o :: rest => runUi rest (dispatch o s)
  end.

(** Number of questions that have received their answer (or timeout). *)
Definition answered (s : Session) : Z :=
  Z.max 0 (currentQuestionIdx s + (if showResult s then 1 else 0)).

(** What holds of a session on the quiz [qz] with question list [qs] as long
    as it is driven through the view. *)
Definition uiInvariant (qz : Quiz) (qs : list Question) (s : Session) : Prop :=
  quiz s = Some qz /\
  questions qz = Some qs /\
  -1 <= currentQuestionIdx s <= JS.length qs - 1 /\
  (currentQuestionIdx s = -1 ->
   showResult s = false /\ isGameOver s = false /\ score s = 0) /\
  (isGameOver s = true ->
   showResult s = true /\ currentQuestionIdx s = JS.length qs - 1) /\
  sound s /\
  score s <= 1500 * answered s.

(** A player who lets every question run out, and one who gives the correct
    option at once. *)
Definition idleRound (cq : Question) : list Op :=
  repeat Tick (Z.to_nat (time_limit cq)) ++ [NextQuestion].

Definition perfectRound (cq : Question) : list Op :=
  [SubmitAnswer (Some (correct_option cq)); NextQuestion].

(** ** The question card while it animates out

    The question card and the result card are the two alternatives inside
    [<AnimatePresence mode="wait">].  The question card has an [exit]
    animation: once [showResult] is set it stays mounted, as the element of
    the last render that contained it, until the animation is over, and only
    then is the result card mounted.  Its four buttons keep the
    [handleAnswer] of that render, whose [showResult] is false.  The result
    card has no exit animation, and the lobby and the final screen are
    separate returns of the component: these are unmounted at once. *)

Record Screen : Type := mkScreen {
  shown : Session;             (* the committed state *)
  leaving : option Session     (* the render that made the card on its way out *)
}.

Definition initialScreen (q : option Quiz) : Screen :=
  mkScreen (initial q) None.

Inductive Event : Type :=
| Control (o : Op)             (* a button of the current view, or the interval *)
| StaleClick (a : string)      (* an answer button of the leaving card *)
| ExitComplete.                (* the exit animation is over *)

(** Does the render of [s] contain the question card? *)
Definition showsCard (s : Session) : bool :=
  match render s with
  | QuestionView _ => true
  | _ => false
  end.

(** The state an operation leaves before the effect of the re-render runs. *)
Definition handled (o : Op) (s : Session) : Session :=
  match o with
  | Start => startQuiz s
  | Tick => if timerArmed s then countdown s else s
  | SubmitAnswer a => handleAnswer a s
  | NextQuestion => nextQuestion s
  end.

(** The card that is on its way out after an operation that ends on a
    result: the last render that contained the question card, which is the
    one the effect ran on (a timeout) or else the one the operation came
    from (a click). *)
Definition cardLeft (o : Op) (s : Session) : option Session :=
  match render (step o s) with
  | ResultView _ =>
      if showsCard (handled o s) then Some (handled o s)
      else if showsCard s then Some s
      else None
  | _ => None
  end.

(** One event on the screen.  While a card is leaving, the view of the
    committed state is not mounted yet: the interval callback and the
    buttons of the leaving card are all that can fire. *)
Definition react (e : Event) (u : Screen) : Screen :=
  match leaving u, e with
  | None, Control o =>
      if offered (render (shown u)) o
      then mkScreen (step o (shown u)) (cardLeft o (shown u))
      else u
  | Some c, Control Tick => mkScreen (tick (shown u)) (Some c)
  | Some c, StaleClick a =>
      if existsb (String.eqb a) answerButtons
      then mkScreen (handleAnswerFrom c (Some a) (shown u)) (Some c)
      else u
  | Some _, ExitComplete => mkScreen (shown u) None
  | _, _ => u
  end.

Fixpoint play (es : list Event) (u : Screen) : Screen :=
  match es with
  | [] => u
  | e :: rest => play rest (react e u)
  end.

(** Number of clicks on a leaving card. *)
Fixpoint staleClicks (es : list Event) : Z :=
  match es with
  | [] => 0
  | StaleClick _ :: rest => 1 + staleClicks rest
  | _ :: rest => staleClicks rest
  end.

(** The state with [k] more points. *)
Definition addScore (k : Z) (s : Session) : Session :=
  setScore (score s + k) s.

(** What holds of a screen on the quiz [qz] after [n] clicks on leaving
    cards: apart from the points [k] those clicks have added, the committed
    state is as in a session without them, and a leaving card belongs to a
    render of the question whose result is now due. *)
Definition screenInvariant (qz : Quiz) (qs : list Question) (n : Z)
           (u : Screen) : Prop :=
  (exists k : Z,
      0 <= k <= 1500 * n /\ uiInvariant qz qs (addScore (- k) (shown u))) /\
  (forall c : Session,
      leaving u = Some c ->
      showResult (shown u) = true /\ showResult c = false /\ timeInRange c).

(** ** The quiz creator form ([QuizCreator]) *)

Module Creator.

(** [Partial<Question>]: every field may be absent. *)
Record Draft : Type := mkDraft {
  draft_id : option Z;
  draft_question_text : option string;
  draft_option_a : option string;
  draft_option_b : option string;
  draft_option_c : option string;
  draft_option_d : option string;
  draft_correct_option : option string;
  draft_time_limit : option Z
}.

(** A position of the [questions] array: assigning beyond the end of a
    JavaScript array leaves holes, which [filter] and [map] skip and which a
    spread turns into [undefined] elements. *)
Inductive Slot : Type :=
| Hole
| Undefined
| Item (d : Draft).

(** The object literal used for a new question. *)
Definition blankQuestion : Draft :=
  mkDraft None (Some EmptyString) (Some EmptyString) (Some EmptyString)
          (Some EmptyString) (Some EmptyString) (Some "A"%string) (Some 20).

(** The initial value of the [questions] state. *)
Definition initialQuestions : list Slot := [Item blankQuestion].

(** [[...questions]] *)
Definition spread (questions : list Slot) : list Slot :=
  map (fun x => match x with Hole => Undefined | _ => x end) questions.

Definition addQuestion (questions : list Slot) : list Slot :=
  spread questions ++ [Item blankQuestion].

(** [questions.filter((_, i) => i !== index)], the positions counted from
    [i]: holes are skipped, every other element is kept unless it sits at
    [index]. *)
Fixpoint filterOut (i index : Z) (questions : list Slot) : list Slot :=
  match questions with
  | [] => []
  | Hole :: rest => filterOut (i + 1) index rest
  | x :: rest =>
      if i =? index then filterOut (i + 1) index rest
      else x :: filterOut (i + 1) index rest
  end.

Definition removeQuestion (index : Z) (questions : list Slot) : list Slot :=
  if 1 <? JS.length questions then filterOut 0 index questions
  else questions.

(** [field: keyof Question] together with its [value]; the value has the
    type the interface declares for the field. *)
Inductive Update : Type :=
| SetId (v : Z)
| SetQuestionText (v : string)
| SetOptionA (v : string)
| SetOptionB (v : string)
| SetOptionC (v : string)
| SetOptionD (v : string)
| SetCorrectOption (v : string)
| SetTimeLimit (v : Z).

(** The empty object a spread of [undefined] contributes. *)
Definition emptyDraft : Draft :=
  mkDraft None None None None None None None None.

(** [{ ...d, [field]: value }] *)
Definition withField (d : Draft) (u : Update) : Draft :=
  match u with
  | SetId v =>
      mkDraft (Some v) (draft_question_text d) (draft_option_a d)
              (draft_option_b d) (draft_option_c d) (draft_option_d d)
              (draft_correct_option d) (draft_time_limit d)
  | SetQuestionText v =>
      mkDraft (draft_id d) (Some v) (draft_option_a d)
              (draft_option_b d) (draft_option_c d) (draft_option_d d)
              (draft_correct_option d) (draft_time_limit d)
  | SetOptionA v =>
      mkDraft (draft_id d) (draft_question_text d) (Some v)
              (draft_option_b d) (draft_option_c d) (draft_option_d d)
              (draft_correct_option d) (draft_time_limit d)
  | SetOptionB v =>
      mkDraft (draft_id d) (draft_question_text d) (draft_option_a d)
              (Some v) (draft_option_c d) (draft_option_d d)
              (draft_correct_option d) (draft_time_limit d)
  | SetOptionC v =>
      mkDraft (draft_id d) (draft_question_text d) (draft_option_a d)
              (draft_option_b d) (Some v) (draft_option_d d)
              (draft_correct_option d) (draft_time_limit d)
  | SetOptionD v =>
      mkDraft (draft_id d) (draft_question_text d) (draft_option_a d)
              (draft_option_b d) (draft_option_c d) (Some v)
              (draft_correct_option d) (draft_time_limit d)
  | SetCorrectOption v =>
      mkDraft (draft_id d) (draft_question_text d) (draft_option_a d)
              (draft_option_b d) (draft_option_c d) (draft_option_d d)
              (Some v) (draft_time_limit d)
  | SetTimeLimit v =>
      mkDraft (draft_id d) (draft_question_text d) (draft_option_a d)
              (draft_option_b d) (draft_option_c d) (draft_option_d d)
              (draft_correct_option d) (Some v)
  end.

(** The fields spread out of [newQuestions[index]]: none when the element
    is missing or [undefined]. *)
Definition fieldsAt (questions : list Slot) (index : Z) : Draft :=
  match JS.index questions index with
  | Some (Item d) => d
  | _ => emptyDraft
  end.

(** [arr[index] = v] on an array: inside the array the element is replaced,
    beyond its end the array grows and the positions in between are holes; a
    negative index only adds a property that no array operation sees. *)
Fixpoint replaceAt (n : nat) (v : Slot) (arr : list Slot) {struct arr}
  : list Slot :=
  match arr, n with
  | [], _ => repeat Hole n ++ [v]
  | _ :: rest, O => v :: rest
  | x :: rest, S m => x :: replaceAt m v rest
  end.

Definition assign (arr : list Slot) (index : Z) (v : Slot) : list Slot :=
  if index <? 0 then arr else replaceAt (Z.to_nat index) v arr.

Definition updateQuestion (index : Z) (u : Update) (questions : list Slot)
  : list Slot :=
  let newQuestions := spread questions in
  assign newQuestions index (Item (withField (fieldsAt newQuestions index) u)).

(** What the rendered form can trigger: the add button, and for the card of
    each question the remove button, the question input, the four option
    inputs and the four radio buttons, whose values are the letters A to D. *)
Inductive Letter : Type := LetterA | LetterB | LetterC | LetterD.

Definition letterId (l : Letter) : string :=
  match l with
  | LetterA => "A" | LetterB => "B" | LetterC => "C" | LetterD => "D"
  end%string.

Definition setOption (l : Letter) (v : string) : Update :=
  match l with
  | LetterA => SetOptionA v
  | LetterB => SetOptionB v
  | LetterC => SetOptionC v
  | LetterD => SetOptionD v
  end.

Inductive FormEvent : Type :=
| ClickAdd
| ClickRemove (idx : nat)
| TypeQuestion (idx : nat) (v : string)
| TypeOption (idx : nat) (l : Letter) (v : string)
| ChooseCorrect (idx : nat) (l : Letter).

(** [questions.map] renders a card for every position that is not a hole;
    on an [undefined] element the card reads [q.question_text] and the
    render throws, so that no control is left to use. *)
Definition renders (questions : list Slot) : bool :=
  forallb (fun x => match x with Undefined => false | _ => true end) questions.

Definition hasCard (questions : list Slot) (idx : nat) : bool :=
  match nth_error questions idx with
  | Some (Item _) => renders questions
  | _ => false
  end.

Definition formStep (e : FormEvent) (questions : list Slot) : list Slot :=
  match e with
  | ClickAdd =>
      if renders questions then addQuestion questions else questions
  | ClickRemove idx =>
      if hasCard questions idx then removeQuestion (Z.of_nat idx) questions
      else questions
  | TypeQuestion idx v =>
      if hasCard questions idx
      then updateQuestion (Z.of_nat idx) (SetQuestionText v) questions
      else questions
  | TypeOption idx l v =>
      if hasCard questions idx
      then updateQuestion (Z.of_nat idx) (setOption l v) questions
      else questions
  | ChooseCorrect idx l =>
      if hasCard questions idx
      then updateQuestion (Z.of_nat idx) (SetCorrectOption (letterId l)) questions
      else questions
  end.

Fixpoint formRun (es : list FormEvent) (questions : list Slot) : list Slot :=
  match es with
  | [] => questions
  | e :: rest => formRun rest (formStep e questions)
  end.

(** The [questions] member of the request body: [JSON.stringify] writes a
    hole or an [undefined] element as [null] and leaves absent fields out. *)
Definition toBody (questions : list Slot) : list (option Draft) :=
  map (fun x => match x with Item d => Some d | _ => None end) questions.

(** A draft as the form keeps it when only its own controls are used. *)
Definition formDraft (d : Draft) : Prop :=
  draft_id d = None /\
  draft_question_text d <> None /\
  draft_option_a d <> None /\ draft_option_b d <> None /\
  draft_option_c d <> None /\ draft_option_d d <> None /\
  (exists l, draft_correct_option d = Some (letterId l)) /\
  draft_time_limit d = Some 20.

(** An array without holes or [undefined] elements. *)
Definition dense (questions : list Slot) : Prop :=
  Forall (fun x => exists d, x = Item d) questions.

(** The state of a form that has only been used through its controls. *)
Definition formState (questions : list Slot) : Prop :=
  questions <> [] /\
  Forall (fun x => exists d, x = Item d /\ formDraft d) questions.

End Creator.

(** ** The quiz store and its endpoints (server) *)

Module Server.

(** Rows of the two tables. *)
Record QuizRow : Type := mkQuizRow {
  row_id : Z;
  row_title : string;
  row_description : string;
  row_topic : string;
  row_created_at : string
}.

Record QuestionRow : Type := mkQuestionRow {
  qrow_id : Z;
  qrow_quiz_id : Z;
  qrow_question_text : string;
  qrow_option_a : string;
  qrow_option_b : string;
  qrow_option_c : string;
  qrow_option_d : string;
  qrow_correct_option : string;
  qrow_time_limit : Z
}.

(** The database: both tables in rowid order, and for each the largest
    rowid handed out so far ([AUTOINCREMENT] never reuses one). *)
Record Db : Type := mkDb {
  quizRows : list QuizRow;
  questionRows : list QuestionRow;
  quizSeq : Z;
  questionSeq : Z
}.

Definition emptyDb : Db := mkDb [] [] 0 0.

Inductive Response : Type :=
| Created (id : Z)                 (* 200 { id, message } *)
| Failed                           (* 500 { error } *)
| NotFound                         (* 404 { error } *)
| Found (quiz : QuizRow) (questions : list QuestionRow).

(** One [questionStmt.run(...)] of the creation endpoint.  The element of
    the body must be an object and the six text columns are [NOT NULL]: a
    [null] element or a missing text makes the statement throw.  The time
    limit bound is [q.time_limit || 20]. *)
Definition questionRow (id quizId : Z) (q : option Creator.Draft)
  : option QuestionRow :=
  match q with
  | Some d =>
      match Creator.draft_question_text d, Creator.draft_option_a d,
            Creator.draft_option_b d, Creator.draft_option_c d,
            Creator.draft_option_d d, Creator.draft_correct_option d with
      | Some t, Some a, Some b, Some c, Some e, Some o =>
          Some (mkQuestionRow id quizId t a b c e o
                  (storedTimeLimit (Creator.draft_time_limit d)))
      | _, _, _, _, _, _ => None
      end
  | None => None
  end.

(** The loop over the questions of the body: [None] when a statement
    throws. *)
Fixpoint insertQuestions (quizId : Z) (body : list (option Creator.Draft))
         (rows : list QuestionRow) (seq : Z) : option (list QuestionRow * Z) :=
  match body with
  | [] => Some (rows, seq)
  | q :: rest =>
      match questionRow (seq + 1) quizId q with
      | Some r => insertQuestions quizId rest (rows ++ [r]) (seq + 1)
      | None => None
      end
  end.

(** [POST /api/quizzes]: the quiz row and the question rows are inserted in
    one transaction, which is rolled back when a statement throws.  [now]
    is the value of [CURRENT_TIMESTAMP]. *)
Definition postQuiz (now title description topic : string)
           (body : list (option Creator.Draft)) (db : Db) : Db * Response :=
  let quizId := quizSeq db + 1 in
  match insertQuestions quizId body (questionRows db) (questionSeq db) with
  | Some (rows, seq) =>
      (mkDb (quizRows db ++ [mkQuizRow quizId title description topic now])
            rows quizId seq,
       Created quizId)
  | None => (db, Failed)
  end.

(** [GET /api/quizzes/:id], the parameter read as an integer. *)
Definition getQuiz (id : Z) (db : Db) : Response :=
  match find (fun r => row_id r =? id) (quizRows db) with
  | None => NotFound
  | Some r => Found r (filter (fun x => qrow_quiz_id x =? id) (questionRows db))
  end.

(** The quiz the player holds after [setQuiz(data)]. *)
Definition toQuestion (r : QuestionRow) : Question :=
  mkQuestion (Some (qrow_id r)) (qrow_question_text r) (qrow_option_a r)
             (qrow_option_b r) (qrow_option_c r) (qrow_option_d r)
             (qrow_correct_option r) (qrow_time_limit r).

Definition toQuiz (r : QuizRow) (rows : list QuestionRow) : Quiz :=
  mkQuiz (row_id r) (row_title r) (row_description r) (row_topic r)
         (row_created_at r) (Some (map toQuestion rows)).

(** A body element the question statement accepts. *)
Definition complete (q : option Creator.Draft) : bool :=
  match questionRow 0 0 q with
  | Some _ => true
  | None => false
  end.

(** The content of a stored question, apart from its ids. *)
Definition sameContent (q : option Creator.Draft) (r : QuestionRow) : Prop :=
  exists d,
    q = Some d /\
    Creator.draft_question_text d = Some (qrow_question_text r) /\
    Creator.draft_option_a d = Some (qrow_option_a r) /\
    Creator.draft_option_b d = Some (qrow_option_b r) /\
    Creator.draft_option_c d = Some (qrow_option_c r) /\
    Creator.draft_option_d d = Some (qrow_option_d r) /\
    Creator.draft_correct_option d = Some (qrow_correct_option r) /\
    qrow_time_limit r = storedTimeLimit (Creator.draft_time_limit d).

(** Quiz ids handed out so far are at most the sequence value, and no
    question row points beyond it. *)
Definition consistent (db : Db) : Prop :=
  (forall r, In r (quizRows db) -> row_id r <= quizSeq db) /\
  (forall x, In x (questionRows db) -> qrow_quiz_id x <= quizSeq db).

(** *** Seeding at start-up *)

(** The seed questions: text, the four options, the correct option. *)
Definition seedQuestions
  : list (string * string * string * string * string * string) :=
  [ ("O'zbekiston mustaqilligi qachon e'lon qilingan?", "1990", "1991", "1992", "1993", "B");
    ("Dunyodagi eng baland tog' qaysi?", "K2", "Lhotse", "Everest", "Makalu", "C");
    ("Quyosh tizimidagi eng katta sayyora?", "Mars", "Yupiter", "Saturn", "Neptun", "B");
    ("Suvning kimyoviy formulasi qanday?", "CO2", "H2O", "O2", "NaCl", "B");
    ("Alisher Navoiy kim bo'lgan?", "Sarkarda", "Shoir va mutafakkir", "Rassom", "Sayohatchi", "B");
    ("O'zbekiston poytaxti qaysi shahar?", "Samarqand", "Buxoro", "Toshkent", "Xiva", "C");
    ("Inson tanasidagi eng katta a'zo nima?", "Yurak", "O'pka", "Teri", "Jigar", "C");
    ("Bir kunda necha soat bor?", "12", "24", "48", "60", "B");
    ("Eng tez yuguradigan quruqlik hayvoni?", "Arslon", "Gepard", "Yo'lbars", "Bo'ri", "B");
    ("Yer yuzida nechta okean bor?", "3", "4", "5", "6", "C");
    ("O'zbekiston bayrog'ida nechta yulduz bor?", "10", "12", "15", "7", "B");
    ("Kompyuterning asosiy hisoblash qismi nima deb ataladi?", "Monitor", "Klaviatura", "Protsessor", "Sichqoncha", "C");
    ("Shaxmat taxtasida jami nechta katak bor?", "32", "64", "100", "81", "B");
    ("Dunyodagi eng chuqur ko'l qaysi?", "Kaspiy", "Viktoriya", "Baykal", "Orol", "C");
    ("Amir Temur qayerda tug'ilgan?", "Toshkent", "Samarqand", "Xo'ja Ilg'or (Shahrisabz)", "Buxoro", "C")
  ]%string.

(** [insertQuestion.run(quizId, ...q)]: the statement names no
    [time_limit], so the column default applies. *)
Definition seedRow (id quizId : Z)
           (q : string * string * string * string * string * string)
  : QuestionRow :=
  let '(t, a, b, c, d, o) := q in
  mkQuestionRow id quizId t a b c d o seedTimeLimit.

Fixpoint insertSeedRows (quizId : Z)
         (qs : list (string * string * string * string * string * string))
         (rows : list QuestionRow) (seq : Z) : list QuestionRow * Z :=
  match qs with
  | [] => (rows, seq)
  | q :: rest =>
      insertSeedRows quizId rest (rows ++ [seedRow (seq + 1) quizId q]) (seq + 1)
  end.

(** The seed quiz and its questions, inserted into [db]. *)
Definition insertSeed (now : string) (db : Db) : Db :=
  let quizId := quizSeq db + 1 in
  let '(rows, seq) :=
    insertSeedRows quizId seedQuestions (questionRows db) (questionSeq db) in
  mkDb (quizRows db
          ++ [mkQuizRow quizId "Umumiy Bilimlar"
                "O'zbekiston va dunyo haqida 15 ta qiziqarli savol!"
                "General" now])
       rows quizId seq.

(** Start-up of server.ts: seed when there is no quiz. *)
Definition seed (now : string) (db : Db) : Db :=
  if JS.length (quizRows db) =? 0 then insertSeed now db else db.

(** Start-up of the other server file: when there are at most two quizzes,
    both tables are emptied ([DELETE] keeps the [AUTOINCREMENT] sequences)
    and the seed is inserted. *)
Definition resetSeed (now : string) (db : Db) : Db :=
  if JS.length (quizRows db) <=? 2
  then insertSeed now (mkDb [] [] (quizSeq db) (questionSeq db))
  else db.

(** What can happen to the store: a creation request, or a start-up of
    either server file. *)
Inductive StoreOp : Type :=
| OpPost (now title description topic : string)
         (body : list (option Creator.Draft))
| OpSeed (now : string)
| OpResetSeed (now : string).

Definition storeStep (o : StoreOp) (db : Db) : Db :=
  match o with
  | OpPost now title description topic body =>
      fst (postQuiz now title description topic body db)
  | OpSeed now => seed now db
  | OpResetSeed now => resetSeed now db
  end.

Fixpoint storeRun (os : list StoreOp) (db : Db) : Db :=
  match os with
  | [] => db
  | o :: rest => storeRun rest (storeStep o db)
  end.

End Server.

(** * Properties *)

(** ** The scoring rule *)

Section Scoring.

(** *** Powers of two and exponents *)

Lemma pow2_pos (e : Z) : (0 < JS.pow2 e)%Q.
Proof. apply Qpower_0_lt. reflexivity. Qed.

Lemma pow2_add (a b : Z) : (JS.pow2 (a + b) == JS.pow2 a * JS.pow2 b)%Q.
Proof. apply Qpower_plus. discriminate. Qed.

Lemma pow2_le (a b : Z) : a <= b -> (JS.pow2 a <= JS.pow2 b)%Q.
Proof. intros H. apply Qpower_le_compat_l; [exact H | discriminate]. Qed.

Lemma pow2_lt (a b : Z) : a < b -> (JS.pow2 a < JS.pow2 b)%Q.
Proof. intros H. apply Qpower_lt_compat_l; [exact H | reflexivity]. Qed.

Lemma pow2_Z (n : Z) : 0 <= n -> (JS.pow2 n == inject_Z (2 ^ n))%Q.
Proof. intros H. unfold JS.pow2. rewrite (Zpower_Qpower 2 n H). reflexivity. Qed.

Lemma pow2_sub (a b : Z) : (JS.pow2 (a - b) == JS.pow2 a / JS.pow2 b)%Q.
Proof. apply Qpower_minus. discriminate. Qed.

(** A positive rational lies between the powers of two its exponent names. *)
Lemma exponent_spec (x : Q) :
  (0 < x)%Q -> (JS.pow2 (JS.exponent x) <= x)%Q /\ (x < JS.pow2 (JS.exponent x + 1))%Q.
Proof.
  intros Hx. destruct x as [n d]. unfold JS.exponent. cbn [Qnum Qden].
  assert (Hn : 0 < n) by (unfold Qlt in Hx; cbn in Hx; lia).
  pose proof (Z.log2_spec n Hn) as [Hn1 Hn2].
  pose proof (Z.log2_spec (Zpos d) (Pos2Z.is_pos d)) as [Hd1 Hd2].
  pose proof (Z.log2_nonneg n) as Hln. pose proof (Z.log2_nonneg (Zpos d)) as Hld.
  set (a := Z.log2 n) in *. set (b := Z.log2 (Zpos d)) in *.
  assert (Hpa : 0 < 2 ^ a) by (apply Z.pow_pos_nonneg; lia).
  assert (Hpb : 0 < 2 ^ b) by (apply Z.pow_pos_nonneg; lia).
  assert (Hsa : 2 ^ Z.succ a = 2 * 2 ^ a) by (apply Z.pow_succ_r; lia).
  assert (Hsb : 2 ^ Z.succ b = 2 * 2 ^ b) by (apply Z.pow_succ_r; lia).
  (* the quotient lies strictly between 2^(a-b-1) and 2^(a-b+1) *)
  assert (Hlow : (JS.pow2 (a - b - 1) <= n # d)%Q).
  { replace (a - b - 1) with (a - (b + 1)) by lia. rewrite pow2_sub.
    rewrite (pow2_Z a), (pow2_Z (b + 1)) by lia.
    apply Qle_shift_div_r.
    - change 0%Q with (inject_Z 0). rewrite <- Zlt_Qlt. apply Z.pow_pos_nonneg; lia.
    - unfold Qle, Qmult, inject_Z. cbn [Qnum Qden].
      replace (2 ^ (b + 1)) with (2 * 2 ^ b) by (rewrite <- Hsb; f_equal; lia).
      rewrite !Pos.mul_1_r, !Z.mul_1_r. nia. }
  assert (Hhigh : (n # d < JS.pow2 (a - b + 1))%Q).
  { replace (a - b + 1) with (a + 1 - b) by lia. rewrite pow2_sub.
    rewrite (pow2_Z (a + 1)), (pow2_Z b) by lia.
    apply Qlt_shift_div_l.
    - change 0%Q with (inject_Z 0). rewrite <- Zlt_Qlt. exact Hpb.
    - unfold Qlt, Qmult, inject_Z. cbn [Qnum Qden].
      replace (2 ^ (a + 1)) with (2 * 2 ^ a) by (rewrite <- Hsa; f_equal; lia).
      rewrite !Pos.mul_1_r, !Z.mul_1_r. nia. }
  destruct (Qle_bool (JS.pow2 (a - b)) (n # d)) eqn:E.
  - apply Qle_bool_iff in E. split; [exact E | exact Hhigh].
  - split; [exact Hlow|]. replace (a - b - 1 + 1) with (a - b) by lia.
    apply Qnot_le_lt. intros H. apply Qle_bool_iff in H. congruence.
Qed.

Lemma exponent_unique (x : Q) (e : Z) :
  (JS.pow2 e <= x)%Q -> (x < JS.pow2 (e + 1))%Q -> JS.exponent x = e.
Proof.
  intros H1 H2.
  assert (Hx : (0 < x)%Q) by (eapply Qlt_le_trans; [apply (pow2_pos e) | exact H1]).
  destruct (exponent_spec x Hx) as [H3 H4].
  assert (A : JS.exponent x < e + 1).
  { apply (Qpower_lt_compat_l_inv 2); [|reflexivity].
    eapply Qle_lt_trans; [exact H3 | exact H2]. }
  assert (B : e < JS.exponent x + 1).
  { apply (Qpower_lt_compat_l_inv 2); [|reflexivity].
    eapply Qle_lt_trans; [exact H1 | exact H4]. }
  lia.
Qed.

(** *** Rounding to the nearest integer, ties to even *)

Lemma nearestEven_floor (x : Q) :
  Qfloor x <= JS.nearestEven x <= Qfloor x + 1.
Proof.
  unfold JS.nearestEven. destruct (_ ?= _); [destruct (Z.even _)| |]; lia.
Qed.

Lemma floor_remainder (n : Z) (d : positive) :
  0 <= n - n / Zpos d * Zpos d < Zpos d.
Proof.
  pose proof (Z.div_mod n (Zpos d) ltac:(lia)).
  pose proof (Z.mod_pos_bound n (Zpos d) ltac:(lia)). lia.
Qed.

(** The nearest integer is within one half. *)
Lemma nearestEven_spec (x : Q) :
  (inject_Z (JS.nearestEven x) - (1 # 2) <= x)%Q /\
  (x <= inject_Z (JS.nearestEven x) + (1 # 2))%Q.
Proof.
  destruct x as [n d]. unfold JS.nearestEven, Qfloor. cbn [Qnum Qden].
  pose proof (floor_remainder n d) as Hr. set (f := n / Zpos d) in *.
  destruct (Z.compare_spec (2 * (n - f * Zpos d)) (Zpos d)) as [E|E|E];
    [destruct (Z.even f)| |];
    unfold Qle, Qminus, Qplus, Qopp, inject_Z; cbn [Qnum Qden];
    rewrite ?Pos2Z.inj_mul; split; nia.
Qed.

Lemma nearestEven_mono (x y : Q) :
  (x <= y)%Q -> JS.nearestEven x <= JS.nearestEven y.
Proof.
  intros H. pose proof (Qfloor_resp_le x y H) as Hf.
  pose proof (nearestEven_floor x) as Hx. pose proof (nearestEven_floor y) as Hy.
  destruct (Z.eq_dec (Qfloor x) (Qfloor y)) as [E|E]; [|lia].
  destruct x as [n1 d1], y as [n2 d2]. unfold JS.nearestEven in *.
  unfold Qfloor in *. cbn [Qnum Qden] in *. unfold Qle in H. cbn [Qnum Qden] in H.
  pose proof (floor_remainder n1 d1) as Hr1.
  pose proof (floor_remainder n2 d2) as Hr2.
  rewrite <- E in *. set (f := n1 / Zpos d1) in *.
  destruct (Z.compare_spec (2 * (n1 - f * Zpos d1)) (Zpos d1)) as [E1|E1|E1];
    destruct (Z.compare_spec (2 * (n2 - f * Zpos d2)) (Zpos d2)) as [E2|E2|E2];
    try destruct (Z.even f); try lia; nia.
Qed.

Lemma nearestEven_Z (n : Z) : JS.nearestEven (inject_Z n) = n.
Proof.
  unfold JS.nearestEven, Qfloor, inject_Z. cbn [Qnum Qden].
  rewrite Z.div_1_r. replace (2 * (n - n * 1)) with 0 by lia. reflexivity.
Qed.

Lemma nearestEven_le (x : Q) (n : Z) :
  (x <= inject_Z n)%Q -> JS.nearestEven x <= n.
Proof.
  intros H. rewrite <- (nearestEven_Z n). apply nearestEven_mono. exact H.
Qed.

Lemma nearestEven_ge (x : Q) (n : Z) :
  (inject_Z n <= x)%Q -> n <= JS.nearestEven x.
Proof.
  intros H. rewrite <- (nearestEven_Z n). apply nearestEven_mono. exact H.
Qed.

(** *** Rounding to the nearest double *)

Lemma scaled_range (x : Q) :
  (0 < x)%Q ->
  (inject_Z (2 ^ 52) <= x / JS.pow2 (JS.exponent x - 52))%Q /\
  (x / JS.pow2 (JS.exponent x - 52) <= inject_Z (2 ^ 53))%Q.
Proof.
  intros Hx. destruct (exponent_spec x Hx) as [H1 H2].
  set (e := JS.exponent x) in *. pose proof (pow2_pos (e - 52)) as Hu.
  rewrite <- (pow2_Z 52), <- (pow2_Z 53) by lia.
  split.
  - apply Qle_shift_div_l; [exact Hu|].
    rewrite <- pow2_add. replace (52 + (e - 52)) with e by lia. exact H1.
  - apply Qle_shift_div_r; [exact Hu|].
    rewrite <- pow2_add. replace (53 + (e - 52)) with (e + 1) by lia.
    apply Qlt_le_weak. exact H2.
Qed.

Lemma scaled_back (x u : Q) : (0 < u)%Q -> (x / u * u == x)%Q.
Proof. intros Hu. field. intros H. rewrite H in Hu. discriminate. Qed.

(** Rounding a positive number stays within its binade and within half a
    unit in the last place. *)
Lemma roundPositive_spec (x : Q) :
  (0 < x)%Q ->
  (JS.pow2 (JS.exponent x) <= JS.roundPositive x)%Q /\
  (JS.roundPositive x <= JS.pow2 (JS.exponent x + 1))%Q /\
  (JS.roundPositive x - x <= (1 # 2) * JS.pow2 (JS.exponent x - 52))%Q /\
  (x - JS.roundPositive x <= (1 # 2) * JS.pow2 (JS.exponent x - 52))%Q.
Proof.
  intros Hx. destruct (scaled_range x Hx) as [H1 H2].
  unfold JS.roundPositive. set (e := JS.exponent x) in *.
  set (u := JS.pow2 (e - 52)) in *.
  assert (Hu : (0 < u)%Q) by apply pow2_pos.
  set (z := (x / u)%Q) in *.
  pose proof (nearestEven_ge z _ H1) as Hm1.
  pose proof (nearestEven_le z _ H2) as Hm2.
  destruct (nearestEven_spec z) as [Hs1 Hs2].
  set (m := JS.nearestEven z) in *.
  assert (Hxz : (z * u == x)%Q) by (apply scaled_back; exact Hu).
  assert (He : (JS.pow2 e == inject_Z (2 ^ 52) * u)%Q).
  { rewrite <- (pow2_Z 52) by lia. unfold u. rewrite <- pow2_add.
    replace (52 + (e - 52)) with e by lia. reflexivity. }
  assert (He1 : (JS.pow2 (e + 1) == inject_Z (2 ^ 53) * u)%Q).
  { rewrite <- (pow2_Z 53) by lia. unfold u. rewrite <- pow2_add.
    replace (53 + (e - 52)) with (e + 1) by lia. reflexivity. }
  rewrite Zle_Qle in Hm1, Hm2.
  assert (A1 : (inject_Z (2 ^ 52) * u <= inject_Z m * u)%Q)
    by (apply Qmult_le_compat_r; [exact Hm1 | apply Qlt_le_weak; exact Hu]).
  assert (A2 : (inject_Z m * u <= inject_Z (2 ^ 53) * u)%Q)
    by (apply Qmult_le_compat_r; [exact Hm2 | apply Qlt_le_weak; exact Hu]).
  assert (A3 : ((inject_Z m - (1 # 2)) * u <= z * u)%Q)
    by (apply Qmult_le_compat_r; [exact Hs1 | apply Qlt_le_weak; exact Hu]).
  assert (A4 : (z * u <= (inject_Z m + (1 # 2)) * u)%Q)
    by (apply Qmult_le_compat_r; [exact Hs2 | apply Qlt_le_weak; exact Hu]).
  rewrite Hxz in A3, A4.
  assert (B3 : ((inject_Z m - (1 # 2)) * u == inject_Z m * u - (1 # 2) * u)%Q) by ring.
  assert (B4 : ((inject_Z m + (1 # 2)) * u == inject_Z m * u + (1 # 2) * u)%Q) by ring.
  rewrite B3 in A3. rewrite B4 in A4.
  rewrite He, He1. repeat split; lra.
Qed.

Lemma exponent_mono (x y : Q) :
  (0 < x)%Q -> (x <= y)%Q -> JS.exponent x <= JS.exponent y.
Proof.
  intros Hx Hxy.
  assert (Hy : (0 < y)%Q) by (eapply Qlt_le_trans; eassumption).
  destruct (exponent_spec x Hx) as [H1 _].
  destruct (exponent_spec y Hy) as [_ H2].
  assert (JS.exponent x < JS.exponent y + 1); [|lia].
  apply (Qpower_lt_compat_l_inv 2); [|reflexivity].
  eapply Qle_lt_trans; [exact H1|]. eapply Qle_lt_trans; [exact Hxy | exact H2].
Qed.

Lemma roundPositive_mono (x y : Q) :
  (0 < x)%Q -> (x <= y)%Q -> (JS.roundPositive x <= JS.roundPositive y)%Q.
Proof.
  intros Hx Hxy.
  assert (Hy : (0 < y)%Q) by (eapply Qlt_le_trans; eassumption).
  pose proof (exponent_mono x y Hx Hxy) as He.
  destruct (Z.eq_dec (JS.exponent x) (JS.exponent y)) as [E|E].
  - unfold JS.roundPositive. rewrite E.
    pose proof (pow2_pos (JS.exponent y - 52)) as Hu.
    apply Qmult_le_compat_r; [|apply Qlt_le_weak; exact Hu].
    rewrite <- Zle_Qle. apply nearestEven_mono.
    unfold Qdiv. apply Qmult_le_compat_r; [exact Hxy|].
    apply Qlt_le_weak, Qinv_lt_0_compat, Hu.
  - destruct (roundPositive_spec x Hx) as (_ & H1 & _).
    destruct (roundPositive_spec y Hy) as (H2 & _).
    eapply Qle_trans; [exact H1|]. eapply Qle_trans; [|exact H2].
    apply pow2_le. lia.
Qed.

Lemma Qnum_pos (x : Q) : (0 < x)%Q -> exists p, Qnum x = Zpos p.
Proof.
  destruct x as [[|p|p] d]; unfold Qlt; cbn; intros H; try lia. eauto.
Qed.

Lemma double_pos (x : Q) : (0 < x)%Q -> JS.double x = JS.roundPositive x.
Proof. intros H. unfold JS.double. destruct (Qnum_pos x H) as [p ->]. reflexivity. Qed.

Lemma double_zero (x : Q) : (x == 0)%Q -> JS.double x = 0%Q.
Proof.
  destruct x as [[|p|p] d]; unfold Qeq; cbn; intros H; try lia. reflexivity.
Qed.

Lemma Qnonneg_cases (x : Q) : (0 <= x)%Q -> (x == 0)%Q \/ (0 < x)%Q.
Proof.
  intros H. destruct (Qlt_le_dec 0 x) as [L|L]; [right; exact L|].
  left. apply Qle_antisym; assumption.
Qed.

Lemma double_nonneg (x : Q) : (0 <= x)%Q -> (0 <= JS.double x)%Q.
Proof.
  intros H. destruct (Qnonneg_cases x H) as [E|L].
  - rewrite (double_zero x E). apply Qle_refl.
  - rewrite (double_pos x L). destruct (roundPositive_spec x L) as (H1 & _).
    eapply Qle_trans; [|exact H1]. apply Qlt_le_weak, pow2_pos.
Qed.

(** Rounding to a double is monotone (on the non-negative numbers). *)
Lemma double_mono (x y : Q) :
  (0 <= x)%Q -> (x <= y)%Q -> (JS.double x <= JS.double y)%Q.
Proof.
  intros Hx Hxy. destruct (Qnonneg_cases x Hx) as [E|L].
  - rewrite (double_zero x E). apply double_nonneg.
    eapply Qle_trans; eassumption.
  - assert (Hy : (0 < y)%Q) by (eapply Qlt_le_trans; eassumption).
    rewrite (double_pos x L), (double_pos y Hy).
    apply roundPositive_mono; assumption.
Qed.

Lemma double_comp (x y : Q) :
  (0 <= x)%Q -> (x == y)%Q -> (JS.double x == JS.double y)%Q.
Proof.
  intros Hx E.
  assert (Hy : (0 <= y)%Q) by (rewrite <- E; exact Hx).
  apply Qle_antisym; apply double_mono; try assumption;
    rewrite E; apply Qle_refl.
Qed.


(** Doubles the component meets, against their binary64 values: 0.1, 1/3,
    201/400 and 1000 * (201/400), which is 502.49999999999994; and an
    integer above 2^53 that is not a double. *)
Example double_values :
  (JS.double (1 # 10) == 3602879701896397 # 36028797018963968)%Q /\
  (JS.double (1 # 3) == 6004799503160661 # 18014398509481984)%Q /\
  (JS.div 201 400 == 1131529406376837 # 2251799813685248)%Q /\
  (JS.mul 1000 (JS.div 201 400) == 8840073487319039 # 17592186044416)%Q /\
  (JS.mul 1000 (JS.div 1 10) == 100)%Q /\
  (JS.double (inject_Z (2 ^ 53 + 1)) == inject_Z (2 ^ 53))%Q.
Proof. vm_compute. repeat split; reflexivity. Qed.

(** *** [Math.round] and the scoring rule *)

Lemma Math_round_mono (x y : Q) : (x <= y)%Q -> JS.Math_round x <= JS.Math_round y.
Proof.
  intros Hxy. unfold JS.Math_round. apply Qfloor_resp_le.
  apply Qplus_le_compat; [exact Hxy | apply Qle_refl].
Qed.

Lemma Math_round_comp (x y : Q) : (x == y)%Q -> JS.Math_round x = JS.Math_round y.
Proof. intros H. unfold JS.Math_round. apply Qfloor_comp. rewrite H. reflexivity. Qed.

Lemma ratio_unit (t d : Z) :
  0 < d -> 0 <= t <= d ->
  (0 <= inject_Z t / inject_Z d /\ inject_Z t / inject_Z d <= 1)%Q.
Proof.
  intros Hd [H0 H1].
  assert (HdQ : (inject_Z 0 < inject_Z d)%Q) by (rewrite <- Zlt_Qlt; exact Hd).
  split.
  - apply Qle_shift_div_l; [exact HdQ|].
    rewrite Qmult_0_l. change 0%Q with (inject_Z 0).
    rewrite <- Zle_Qle. exact H0.
  - apply Qle_shift_div_r; [exact HdQ|].
    rewrite Qmult_1_l. rewrite <- Zle_Qle. exact H1.
Qed.

Lemma ratio_self (d : Z) : d <> 0 -> (inject_Z d / inject_Z d == 1)%Q.
Proof.
  intros Hd. apply Qmult_inv_r. intros H.
  apply Hd. apply (proj1 (inject_Z_injective d 0)). exact H.
Qed.

Lemma double_one : (JS.double 1 == 1)%Q.
Proof. vm_compute. reflexivity. Qed.

Lemma double_thousand : (JS.double 1000 == 1000)%Q.
Proof. vm_compute. reflexivity. Qed.

Lemma div_unit (a b : Q) :
  (0 <= a / b)%Q -> (a / b <= 1)%Q -> (0 <= JS.div a b)%Q /\ (JS.div a b <= 1)%Q.
Proof.
  intros H0 H1. unfold JS.div. split; [apply double_nonneg; exact H0|].
  apply (Qle_trans _ (JS.double 1)); [apply double_mono; assumption|].
  rewrite double_one. apply Qle_refl.
Qed.

Lemma mul_thousand (q : Q) :
  (0 <= q)%Q -> (q <= 1)%Q ->
  (0 <= JS.mul 1000 q)%Q /\ (JS.mul 1000 q <= 1000)%Q.
Proof.
  intros H0 H1. unfold JS.mul.
  assert (A : (0 <= 1000 * q)%Q) by lra.
  split; [apply double_nonneg; exact A|].
  apply (Qle_trans _ (JS.double 1000)); [apply double_mono; [exact A | lra]|].
  rewrite double_thousand. apply Qle_refl.
Qed.

Lemma Math_round_Z (n : Z) : JS.Math_round (inject_Z n) = n.
Proof.
  unfold JS.Math_round.
  assert (H1 : n <= Qfloor (inject_Z n + (1 # 2))).
  { rewrite <- (Qfloor_Z n) at 1. apply Qfloor_resp_le.
    rewrite <- (Qplus_0_r (inject_Z n)) at 1.
    apply Qplus_le_compat; [apply Qle_refl | discriminate]. }
  assert (H2 : Qfloor (inject_Z n + (1 # 2)) < n + 1).
  { rewrite Zlt_Qlt. eapply Qle_lt_trans; [apply Qfloor_le|].
    rewrite inject_Z_plus. apply Qplus_lt_r. reflexivity. }
  lia.
Qed.

Lemma scoreFormula_range (t d : Z) :
  0 < d -> 0 <= t <= d -> 500 <= scoreFormula t d <= 1500.
Proof.
  intros Hd Ht. destruct (ratio_unit t d Hd Ht) as [H0 H1].
  destruct (div_unit _ _ H0 H1) as [A0 A1].
  destruct (mul_thousand _ A0 A1) as [B0 B1].
  unfold scoreFormula.
  set (y := JS.mul 1000 (JS.div (inject_Z t) (inject_Z d))) in *.
  assert (C0 : JS.Math_round (inject_Z 0) <= JS.Math_round y)
    by (apply Math_round_mono; exact B0).
  assert (C1 : JS.Math_round y <= JS.Math_round (inject_Z 1000))
    by (apply Math_round_mono; exact B1).
  rewrite Math_round_Z in C0, C1. lia.
Qed.

Lemma scoreFormula_zero (d : Z) : scoreFormula 0 d = 500.
Proof.
  unfold scoreFormula, JS.mul, JS.div.
  rewrite (double_zero (inject_Z 0 / inject_Z d))
    by (unfold Qdiv; rewrite Qmult_0_l; reflexivity).
  reflexivity.
Qed.

Lemma scoreFormula_full (d : Z) : d <> 0 -> scoreFormula d d = 1500.
Proof.
  intros Hd. unfold scoreFormula, JS.mul, JS.div.
  pose proof (ratio_self d Hd) as Hq.
  assert (H1 : (JS.double (inject_Z d / inject_Z d) == 1)%Q).
  { apply (Qeq_trans _ (JS.double 1)); [|exact double_one].
    apply double_comp; [rewrite Hq; discriminate | exact Hq]. }
  assert (H2 : (JS.double (1000 * JS.double (inject_Z d / inject_Z d)) == 1000)%Q).
  { apply (Qeq_trans _ (JS.double 1000)); [|exact double_thousand].
    apply double_comp; rewrite H1; [discriminate | reflexivity]. }
  rewrite (Math_round_comp _ _ H2). reflexivity.
Qed.






End Scoring.

(** ** Phases and guards *)

Lemma phase_question (s : Session) :
  phase s = QuestionPhase <->
  currentQuestionIdx s <> -1 /\ isGameOver s = false /\ showResult s = false.
Proof.
  unfold phase. destruct (Z.eqb_spec (currentQuestionIdx s) (-1)) as [E|E];
    destruct (isGameOver s), (showResult s); split;
    try discriminate; try tauto; intros (H1 & H2 & H3);
    try discriminate; contradiction.
Qed.

Lemma phase_result (s : Session) :
  phase s = Result <->
  currentQuestionIdx s <> -1 /\ isGameOver s = false /\ showResult s = true.
Proof.
  unfold phase. destruct (Z.eqb_spec (currentQuestionIdx s) (-1)) as [E|E];
    destruct (isGameOver s), (showResult s); split;
    try discriminate; try tauto; intros (H1 & H2 & H3);
    try discriminate; contradiction.
Qed.

Lemma phase_gameOver (s : Session) :
  phase s = GameOver <-> currentQuestionIdx s <> -1 /\ isGameOver s = true.
Proof.
  unfold phase. destruct (Z.eqb_spec (currentQuestionIdx s) (-1)) as [E|E];
    destruct (isGameOver s), (showResult s); split;
    try discriminate; try tauto; intros (H1 & H2);
    try discriminate; contradiction.
Qed.

Lemma phase_lobby (s : Session) :
  phase s = Lobby <-> currentQuestionIdx s = -1.
Proof.
  unfold phase. destruct (Z.eqb_spec (currentQuestionIdx s) (-1)) as [E|E];
    destruct (isGameOver s), (showResult s); split;
    try discriminate; try tauto; intros H; contradiction.
Qed.

Lemma timerArmed_true (s : Session) :
  timerArmed s = true <->
  0 <= currentQuestionIdx s /\ showResult s = false /\ isGameOver s = false
  /\ 0 < timeLeft s.
Proof.
  unfold timerArmed. rewrite !andb_true_iff, !negb_true_iff.
  rewrite Z.leb_le, Z.ltb_lt. tauto.
Qed.

Lemma timeoutDue_true (s : Session) :
  timeoutDue s = true <->
  timeLeft s = 0 /\ 0 <= currentQuestionIdx s /\ showResult s = false
  /\ isGameOver s = false.
Proof.
  unfold timeoutDue. rewrite !andb_true_iff, !negb_true_iff.
  rewrite Z.leb_le, Z.eqb_eq. tauto.
Qed.

(** Outside the question phase the interval is not armed and no timeout is
    due, so the effect does nothing. *)
Lemma timer_idle (s : Session) :
  phase s <> QuestionPhase -> timerArmed s = false /\ timeoutDue s = false.
Proof.
  intros H. unfold timerArmed, timeoutDue.
  destruct (showResult s) eqn:Es; [split; cbn; btauto|].
  destruct (isGameOver s) eqn:Eo; [split; cbn; btauto|].
  destruct (Z.eqb_spec (currentQuestionIdx s) (-1)) as [E|E].
  - rewrite E. split; cbn; btauto.
  - exfalso. apply H. apply phase_question. auto.
Qed.

Lemma timerEffect_shown (s : Session) :
  showResult s = true -> timerEffect s = s.
Proof.
  intros H. unfold timerEffect, timerArmed, timeoutDue. rewrite H. cbn.
  rewrite !andb_false_r. cbn. reflexivity.
Qed.

Lemma timerEffect_over (s : Session) :
  isGameOver s = true -> timerEffect s = s.
Proof.
  intros H. unfold timerEffect, timerArmed, timeoutDue. rewrite H. cbn.
  rewrite !andb_false_r. cbn. reflexivity.
Qed.

Lemma tick_idle (s : Session) : phase s <> QuestionPhase -> tick s = s.
Proof.
  intros H. unfold tick. destruct (timer_idle s H) as [-> _]. reflexivity.
Qed.

(** ** [handleAnswer] *)

Lemma handleAnswer_shown (a : option string) (s : Session) :
  showResult s = true -> handleAnswer a s = s.
Proof. intros H. unfold handleAnswer, handleAnswerFrom. rewrite H. reflexivity. Qed.

Lemma handleAnswer_showResult (a : option string) (s : Session) :
  showResult (handleAnswer a s) = true.
Proof.
  unfold handleAnswer, handleAnswerFrom. destruct (showResult s) eqn:E; [exact E|].
  destruct (JS.strict_eq _ _); reflexivity.
Qed.

Lemma handleAnswer_frame (a : option string) (s : Session) :
  quiz (handleAnswer a s) = quiz s /\
  currentQuestionIdx (handleAnswer a s) = currentQuestionIdx s /\
  timeLeft (handleAnswer a s) = timeLeft s /\
  isGameOver (handleAnswer a s) = isGameOver s.
Proof.
  unfold handleAnswer, handleAnswerFrom. destruct (showResult s); [auto|].
  destruct (JS.strict_eq _ _); cbn; auto.
Qed.

Lemma handleAnswer_selected (a : option string) (s : Session) :
  showResult s = false -> selectedAnswer (handleAnswer a s) = a.
Proof.
  intros H. unfold handleAnswer, handleAnswerFrom. rewrite H.
  destruct (JS.strict_eq _ _); reflexivity.
Qed.

Lemma handleAnswer_score (a : option string) (s : Session) :
  showResult s = false ->
  score (handleAnswer a s) =
  if JS.strict_eq a (option_map correct_option (currentQuestion s))
  then score s + points s else score s.
Proof.
  intros H. unfold handleAnswer, handleAnswerFrom. rewrite H.
  destruct (JS.strict_eq _ _); reflexivity.
Qed.

Lemma strict_eq_true (a : option string) (c : string) :
  JS.strict_eq a (Some c) = true <-> a = Some c.
Proof.
  destruct a as [x|]; cbn.
  - rewrite String.eqb_eq. split; [intros ->; reflexivity | intros [= ->]; reflexivity].
  - split; discriminate.
Qed.


Lemma handleAnswer_phase (a : option string) (s : Session) :
  phase s = QuestionPhase -> phase (handleAnswer a s) = Result.
Proof.
  intros H. apply phase_question in H. destruct H as (Hi & Ho & Hs).
  apply phase_result. destruct (handleAnswer_frame a s) as (_ & -> & _ & ->).
  rewrite handleAnswer_showResult. auto.
Qed.

Lemma points_current (s : Session) (cq : Question) :
  currentQuestion s = Some cq -> time_limit cq <> 0 ->
  points s = scoreFormula (timeLeft s) (time_limit cq).
Proof.
  intros Hc Hl. unfold points. rewrite Hc. cbn.
  destruct (Z.eqb_spec (time_limit cq) 0); [contradiction | reflexivity].
Qed.

(** The scenario of two questions of 20 seconds each (correct options B and
    C), played step by step. *)
Lemma scenario_two_questions :
  let s0 := initial (Some twoQuestions) in
  let s1 := step Start s0 in
  let s2 := run (repeat Tick 5) s1 in
  let s3 := step (SubmitAnswer (Some "B"%string)) s2 in
  let s4 := step NextQuestion s3 in
  let s5 := step (SubmitAnswer (Some "A"%string)) s4 in
  let s6 := step NextQuestion s5 in
  (phase s1 = QuestionPhase /\ currentQuestionIdx s1 = 0 /\ timeLeft s1 = 20) /\
  timeLeft s2 = 15 /\
  (score s3 = 1250 /\ phase s3 = Result) /\
  (currentQuestionIdx s4 = 1 /\ phase s4 = QuestionPhase /\ timeLeft s4 = 20) /\
  (score s5 = 1250 /\ phase s5 = Result) /\
  phase s6 = GameOver.
Proof. vm_compute. repeat split; reflexivity. Qed.




(** C10. A correct answer in the question phase, given with a remaining time
    between 0 and a positive time limit, adds between 500 and 1500 points:
    exactly 500 with no time remaining and exactly 1500 with all of it. *)
Theorem correct_answer_points_range (s : Session) (cq : Question) :
  phase s = QuestionPhase ->
  currentQuestion s = Some cq ->
  0 < time_limit cq ->
  0 <= timeLeft s <= time_limit cq ->
  let gained := score (handleAnswer (Some (correct_option cq)) s) - score s in
  500 <= gained <= 1500 /\
  (timeLeft s = 0 -> gained = 500) /\
  (timeLeft s = time_limit cq -> gained = 1500).
Proof.
  intros Hp Hc Hl Ht gained.
  pose proof (proj1 (phase_question s) Hp) as (_ & _ & Hs).
  assert (Hg : gained = scoreFormula (timeLeft s) (time_limit cq)).
  { unfold gained. rewrite (handleAnswer_score _ s Hs), Hc. cbn [option_map].
    rewrite (proj2 (strict_eq_true _ _) eq_refl).
    rewrite (points_current s cq Hc) by lia. lia. }
  rewrite Hg. split; [apply scoreFormula_range; assumption|].
  split; intros ->.
  - apply scoreFormula_zero.
  - apply scoreFormula_full. lia.
Qed.

Lemma correct_answer_points_range_witness :
  let s := run [Start; Tick; Tick; Tick] (initial (Some twoQuestions)) in
  let gained := score (handleAnswer (Some "B"%string) s) - score s in
  500 <= gained <= 1500 /\
  (timeLeft s = 0 -> gained = 500) /\
  (timeLeft s = 20 -> gained = 1500).
Proof.
  apply (correct_answer_points_range
           (run [Start; Tick; Tick; Tick] (initial (Some twoQuestions)))
           (sampleQuestion "B" 20)).
  - reflexivity.
  - reflexivity.
  - cbn. lia.
  - cbn. lia.
Defined.

(** ** One answer per question *)

Lemma step_submit (a : option string) (s : Session) :
  step (SubmitAnswer a) s = handleAnswer a s.
Proof.
  cbn. apply timerEffect_shown. apply handleAnswer_showResult.
Qed.

(** C5 fails in the code.  On the first question of the two-question quiz,
    with 15 seconds left, the player clicks A (wrong) and then, on the
    question card that is still animating out, B (correct): the second call
    of [handleAnswer] comes from the render in which [showResult] was false,
    passes the guard, replaces the recorded answer by B and adds 1250
    points.  Clicking B twice scores the question twice. *)
Theorem second_answer_is_honored :
  let u0 := play (Control Start :: repeat (Control Tick) 5)
                 (initialScreen (Some twoQuestions)) in
  let u1 := react (Control (SubmitAnswer (Some "A"%string))) u0 in
  let u2 := react (StaleClick "B"%string) u1 in
  let v1 := react (Control (SubmitAnswer (Some "B"%string))) u0 in
  let v2 := react (StaleClick "B"%string) v1 in
  (phase (shown u0) = QuestionPhase /\ timeLeft (shown u0) = 15 /\
   leaving u0 = None) /\
  (phase (shown u1) = Result /\ leaving u1 = Some (shown u0) /\
   selectedAnswer (shown u1) = Some "A"%string /\ score (shown u1) = 0) /\
  (shown u2 = handleAnswerFrom (shown u0) (Some "B"%string) (shown u1) /\
   phase (shown u2) = Result /\
   selectedAnswer (shown u2) = Some "B"%string /\ score (shown u2) = 1250) /\
  (score (shown v1) = 1250 /\ score (shown v2) = 2500).
Proof. vm_compute. repeat split; reflexivity. Qed.

(** ** [nextQuestion] *)

Lemma index_in_range {A : Type} (arr : list A) (i : Z) :
  0 <= i < JS.length arr -> exists x, JS.index arr i = Some x.
Proof.
  intros [H0 H1]. unfold JS.index, JS.length in *.
  destruct (Z.ltb_spec i 0) as [Hn|_]; [lia|].
  destruct (nth_error arr (Z.to_nat i)) as [x|] eqn:E; [eauto|].
  apply nth_error_None in E. lia.
Qed.

(** C7. In the result phase, on the last question [nextQuestion] ends the
    game; on any earlier question it moves to the next index, sets the time
    to that question's limit, clears the recorded answer and returns to the
    question phase.  The effect that follows leaves that state as it is
    (for a new time limit other than 0, where the countdown would have run
    out at once). *)
Theorem nextQuestion_from_result (s : Session) (qz : Quiz) (qs : list Question) :
  quiz s = Some qz ->
  questions qz = Some qs ->
  phase s = Result ->
  0 <= currentQuestionIdx s < JS.length qs ->
  (currentQuestionIdx s = JS.length qs - 1 ->
   phase (nextQuestion s) = GameOver /\
   phase (nextQuestion s) <> QuestionPhase /\
   currentQuestionIdx (nextQuestion s) = currentQuestionIdx s /\
   step NextQuestion s = nextQuestion s) /\
  (currentQuestionIdx s <> JS.length qs - 1 ->
   exists nq : Question,
     JS.index qs (currentQuestionIdx s + 1) = Some nq /\
     currentQuestionIdx (nextQuestion s) = currentQuestionIdx s + 1 /\
     timeLeft (nextQuestion s) = time_limit nq /\
     selectedAnswer (nextQuestion s) = None /\
     phase (nextQuestion s) = QuestionPhase /\
     score (nextQuestion s) = score s /\
     (time_limit nq <> 0 -> step NextQuestion s = nextQuestion s)).
Proof.
  intros Hq Hqs Hp Hi.
  apply phase_result in Hp. destruct Hp as (Hn & Ho & Hs).
  cbn [step]. unfold nextQuestion. rewrite Hq. cbn [JS.chain]. rewrite Hqs.
  split; intros Hlast.
  - destruct (Z.ltb_spec (currentQuestionIdx s) (JS.length qs - 1)); [lia|].
    assert (Hph : phase (setIsGameOver true s) = GameOver).
    { apply phase_gameOver. cbn. auto. }
    rewrite Hph. split; [reflexivity|]. split; [discriminate|].
    split; [reflexivity | apply timerEffect_over; reflexivity].
  - destruct (Z.ltb_spec (currentQuestionIdx s) (JS.length qs - 1)); [|lia].
    destruct (index_in_range qs (currentQuestionIdx s + 1)) as [nq Hnq]; [lia|].
    exists nq. rewrite Hnq.
    set (s' := setShowResult false _).
    split; [reflexivity|]. split; [reflexivity|]. split; [reflexivity|].
    split; [reflexivity|]. split; [|split; [reflexivity|]].
    + apply phase_question. cbn. repeat split; [lia | exact Ho].
    + intros Hl. unfold timerEffect.
      destruct (timerArmed s'); [reflexivity|].
      destruct (timeoutDue s') eqn:E; [|reflexivity].
      apply timeoutDue_true in E. destruct E as [E _]. cbn in E. contradiction.
Qed.

Lemma nextQuestion_from_result_witness :
  let s := run [Start; SubmitAnswer (Some "B"%string)]
               (initial (Some twoQuestions)) in
  exists nq : Question,
    JS.index [sampleQuestion "B" 20; sampleQuestion "C" 20]
             (currentQuestionIdx s + 1) = Some nq /\
    currentQuestionIdx (nextQuestion s) = currentQuestionIdx s + 1 /\
    timeLeft (nextQuestion s) = time_limit nq /\
    selectedAnswer (nextQuestion s) = None /\
    phase (nextQuestion s) = QuestionPhase /\
    score (nextQuestion s) = score s /\
    (time_limit nq <> 0 -> step NextQuestion s = nextQuestion s).
Proof.
  apply (proj2 (nextQuestion_from_result
                  (run [Start; SubmitAnswer (Some "B"%string)]
                       (initial (Some twoQuestions)))
                  twoQuestions
                  [sampleQuestion "B" 20; sampleQuestion "C" 20]
                  eq_refl eq_refl eq_refl
                  (conj (Z.le_refl 0) eq_refl))).
  vm_compute. discriminate.
Defined.

(** ** Game over *)

Lemma step_gameOver (o : Op) (s : Session) :
  isGameOver s = true -> 0 <= currentQuestionIdx s ->
  isGameOver (step o s) = true /\ 0 <= currentQuestionIdx (step o s).
Proof.
  intros Ho Hi. destruct o as [| |a|].
  - cbn [step]. rewrite timerEffect_over by exact Ho.
    split; [exact Ho | cbn; lia].
  - cbn [step]. unfold tick, timerArmed. rewrite Ho. cbn.
    rewrite andb_false_r. cbn. auto.
  - rewrite step_submit. destruct (handleAnswer_frame a s) as (_ & -> & _ & ->).
    auto.
  - cbn. assert (Hn : isGameOver (nextQuestion s) = true
                      /\ 0 <= currentQuestionIdx (nextQuestion s)).
    { unfold nextQuestion. destruct (quiz s ?> questions) as [qs|]; [|auto].
      destruct (_ <? _); [|cbn; auto].
      destruct (JS.index qs _); cbn; split; try exact Ho; lia. }
    rewrite timerEffect_over by tauto. exact Hn.
Qed.

Lemma dispatch_gameOver (o : Op) (s : Session) :
  phase s = GameOver -> dispatch o s = s.
Proof.
  intros Hp. unfold dispatch.
  assert (Ht : tick s = s) by (apply tick_idle; rewrite Hp; discriminate).
  unfold render. rewrite Hp.
  destruct (quiz s), o; cbn; auto.
Qed.

(** C8. From the game-over phase no sequence of operations leaves it, be the
    operations called directly or sent through the rendered view (which then
    leaves the whole state as it is). *)
Theorem gameOver_terminal (s : Session) (ops : list Op) :
  phase s = GameOver ->
  -1 <= currentQuestionIdx s ->
  phase (run ops s) = GameOver /\
  (forall o : Op, dispatch o s = s).
Proof.
  intros Hp Hi. split; [|intros o; apply dispatch_gameOver; exact Hp].
  apply phase_gameOver in Hp. destruct Hp as [Hn Ho].
  assert (H0 : 0 <= currentQuestionIdx s) by lia. clear Hi Hn.
  revert s Ho H0. induction ops as [|o rest IH]; intros s Ho H0.
  - cbn. apply phase_gameOver. split; [lia | exact Ho].
  - cbn [run]. destruct (step_gameOver o s Ho H0) as [Ho' H0'].
    apply IH; assumption.
Qed.

Lemma gameOver_terminal_witness :
  let s := run [Start; SubmitAnswer None; NextQuestion; SubmitAnswer None;
                NextQuestion] (initial (Some twoQuestions)) in
  phase (run [Start; NextQuestion; SubmitAnswer (Some "C"%string); Tick] s)
  = GameOver /\
  (forall o : Op, dispatch o s = s).
Proof.
  apply (gameOver_terminal
           (run [Start; SubmitAnswer None; NextQuestion; SubmitAnswer None;
                 NextQuestion] (initial (Some twoQuestions)))
           [Start; NextQuestion; SubmitAnswer (Some "C"%string); Tick]).
  - reflexivity.
  - apply Z.leb_le. reflexivity.
Defined.

(** ** The countdown *)

Lemma question_armed (s : Session) :
  phase s = QuestionPhase -> -1 <= currentQuestionIdx s -> 0 < timeLeft s ->
  timerArmed s = true.
Proof.
  intros Hp Hi Ht. apply phase_question in Hp. destruct Hp as (Hn & Ho & Hs).
  apply timerArmed_true. repeat split; try assumption. lia.
Qed.

Lemma timerEffect_timeLeft (s : Session) :
  timeLeft (timerEffect s) = timeLeft s.
Proof.
  unfold timerEffect. destruct (timerArmed s); [reflexivity|].
  destruct (timeoutDue s); [|reflexivity].
  apply (handleAnswer_frame None s).
Qed.

Lemma tick_timeLeft (s : Session) :
  timeLeft (tick s) = if timerArmed s then timeLeft s - 1 else timeLeft s.
Proof.
  unfold tick. destruct (timerArmed s); [|reflexivity].
  rewrite timerEffect_timeLeft. reflexivity.
Qed.

Lemma tick_nonneg (s : Session) : 0 <= timeLeft s -> 0 <= timeLeft (tick s).
Proof.
  intros H. rewrite tick_timeLeft. destruct (timerArmed s) eqn:E; [|exact H].
  apply timerArmed_true in E. lia.
Qed.

Lemma ticks_nonneg (n : nat) (s : Session) :
  0 <= timeLeft s -> 0 <= timeLeft (run (repeat Tick n) s).
Proof.
  revert s. induction n as [|n IH]; intros s H; [exact H|].
  cbn [repeat run step]. apply IH. apply tick_nonneg. exact H.
Qed.

(** With more than one second left a tick only counts down. *)
Lemma tick_running (s : Session) :
  timerArmed s = true -> 1 < timeLeft s -> tick s = countdown s.
Proof.
  intros Ha Ht. unfold tick. rewrite Ha. unfold timerEffect.
  assert (Hc : timerArmed (countdown s) = true).
  { apply timerArmed_true in Ha. apply timerArmed_true. cbn.
    repeat split; try tauto. lia. }
  rewrite Hc. reflexivity.
Qed.

(** The tick that takes the last second submits the timeout answer. *)
Lemma tick_timeout (s : Session) :
  timerArmed s = true -> timeLeft s = 1 ->
  tick s = handleAnswer None (setTimeLeft 0 s).
Proof.
  intros Ha Ht. unfold tick. rewrite Ha. unfold timerEffect, countdown.
  rewrite Ht. change (1 - 1) with 0.
  apply timerArmed_true in Ha. destruct Ha as (Hi & Hs & Ho & _).
  assert (Hc : timerArmed (setTimeLeft 0 s) = false).
  { unfold timerArmed. cbn. apply andb_false_r. }
  assert (Hd : timeoutDue (setTimeLeft 0 s) = true).
  { apply timeoutDue_true. cbn. auto. }
  rewrite Hc, Hd. reflexivity.
Qed.

Lemma ticks_until_timeout (n : nat) (s : Session) :
  timerArmed s = true -> timeLeft s = Z.of_nat (S n) ->
  run (repeat Tick (S n)) s = handleAnswer None (setTimeLeft 0 s).
Proof.
  revert s. induction n as [|n IH]; intros s Ha Ht.
  - cbn [repeat run step]. apply tick_timeout; [exact Ha | exact Ht].
  - change (repeat Tick (S (S n))) with (Tick :: repeat Tick (S n)).
    cbn [run step]. rewrite tick_running by (try exact Ha; lia).
    rewrite IH.
    + reflexivity.
    + apply timerArmed_true in Ha. apply timerArmed_true. cbn.
      repeat split; try tauto. lia.
    + cbn. lia.
Qed.

(** While seconds remain, [n] ticks take exactly [n] seconds off. *)
Lemma ticks_timeLeft (n : nat) (s : Session) :
  timerArmed s = true -> Z.of_nat n <= timeLeft s ->
  timeLeft (run (repeat Tick n) s) = timeLeft s - Z.of_nat n.
Proof.
  revert s. induction n as [|n IH]; intros s Ha Hn; [cbn; lia|].
  cbn [repeat run step].
  destruct (Z.eq_dec (timeLeft s) 1) as [E1|E1].
  - destruct n as [|n]; [|lia]. cbn [repeat run].
    rewrite tick_timeLeft, Ha. lia.
  - pose proof (proj1 (timerArmed_true s) Ha) as (Hi & Hs & Ho & Ht).
    rewrite tick_running by (try exact Ha; lia).
    rewrite IH.
    + cbn. lia.
    + apply timerArmed_true. cbn. repeat split; try assumption. lia.
    + cbn. lia.
Qed.

Lemma ticks_after_result (n : nat) (s : Session) :
  showResult s = true -> run (repeat Tick n) s = s.
Proof.
  intros Hs. induction n as [|n IH]; [reflexivity|].
  cbn [repeat run step]. rewrite tick_idle; [exact IH|].
  intros Hp. apply phase_question in Hp. destruct Hp as (_ & _ & Hf).
  rewrite Hs in Hf. discriminate.
Qed.

(** C4. In the question phase with time remaining a tick takes exactly one
    second off, and so does each of the ticks that follow while seconds
    remain; ticks never take the time below 0; and the tick that brings
    it to 0 acts as [handleAnswer(null)]: after as many ticks as there were
    seconds left the time is 0, no option is recorded, the score is as
    before, the phase is the result phase, and further ticks do nothing. *)
Theorem tick_counts_down_to_timeout (s : Session) :
  phase s = QuestionPhase ->
  -1 <= currentQuestionIdx s ->
  0 < timeLeft s ->
  timeLeft (tick s) = timeLeft s - 1 /\
  (forall n : nat,
      Z.of_nat n <= timeLeft s ->
      timeLeft (run (repeat Tick n) s) = timeLeft s - Z.of_nat n) /\
  (forall n : nat, 0 <= timeLeft (run (repeat Tick n) s)) /\
  (let s' := run (repeat Tick (Z.to_nat (timeLeft s))) s in
   s' = handleAnswer None (setTimeLeft 0 s) /\
   timeLeft s' = 0 /\
   selectedAnswer s' = None /\
   score s' = score s /\
   phase s' = Result /\
   (forall n : nat, run (repeat Tick n) s' = s')).
Proof.
  intros Hp Hi Ht.
  pose proof (question_armed s Hp Hi Ht) as Ha.
  split; [rewrite tick_timeLeft, Ha; reflexivity|].
  split; [intros n Hn; apply ticks_timeLeft; assumption|].
  split; [intros n; apply ticks_nonneg; lia|].
  destruct (Z.to_nat (timeLeft s)) as [|n] eqn:En; [lia|].
  rewrite (ticks_until_timeout n s Ha) by lia.
  set (s0 := setTimeLeft 0 s).
  assert (Hs0 : showResult s0 = false)
    by (apply timerArmed_true in Ha; cbn; tauto).
  split; [reflexivity|].
  split; [destruct (handleAnswer_frame None s0) as (_ & _ & -> & _); reflexivity|].
  split; [apply handleAnswer_selected; exact Hs0|].
  split; [rewrite (handleAnswer_score None s0 Hs0); reflexivity|].
  split.
  - apply handleAnswer_phase. apply phase_question.
    apply phase_question in Hp. cbn. exact Hp.
  - intros k. apply ticks_after_result. apply handleAnswer_showResult.
Qed.

Lemma tick_counts_down_to_timeout_witness :
  let s := run [Start; Tick] (initial (Some twoQuestions)) in
  timeLeft (tick s) = timeLeft s - 1 /\
  (forall n : nat,
      Z.of_nat n <= timeLeft s ->
      timeLeft (run (repeat Tick n) s) = timeLeft s - Z.of_nat n) /\
  (forall n : nat, 0 <= timeLeft (run (repeat Tick n) s)) /\
  (let s' := run (repeat Tick (Z.to_nat (timeLeft s))) s in
   s' = handleAnswer None (setTimeLeft 0 s) /\
   timeLeft s' = 0 /\
   selectedAnswer s' = None /\
   score s' = score s /\
   phase s' = Result /\
   (forall n : nat, run (repeat Tick n) s' = s')).
Proof.
  apply (tick_counts_down_to_timeout
           (run [Start; Tick] (initial (Some twoQuestions)))).
  - reflexivity.
  - apply Z.leb_le. reflexivity.
  - reflexivity.
Defined.

(** ** The score over a whole session *)

Lemma or_default_nonzero (v : option Z) : JS.or_default v 20 <> 0.
Proof.
  destruct v as [n|]; cbn; [|discriminate].
  destruct (Z.eqb_spec n 0); [discriminate | assumption].
Qed.

Lemma points_range (s : Session) (cq : Question) :
  timeInRange s -> currentQuestion s = Some cq -> 500 <= points s <= 1500.
Proof.
  intros Hr Hc. unfold points. rewrite Hc. cbn [option_map].
  pose proof (or_default_nonzero (Some (time_limit cq))) as Hd.
  destruct (Hr cq Hc) as [Hin | Heq].
  - apply scoreFormula_range; lia.
  - rewrite Heq. rewrite scoreFormula_full by exact Hd. lia.
Qed.

Lemma timeInRange_same (s s' : Session) :
  quiz s' = quiz s -> currentQuestionIdx s' = currentQuestionIdx s ->
  timeLeft s' = timeLeft s -> timeInRange s -> timeInRange s'.
Proof.
  intros Hq Hi Ht Hr cq Hc. unfold currentQuestion, questionAt in Hc.
  rewrite Hq, Hi in Hc. rewrite Ht. apply Hr. exact Hc.
Qed.

Lemma strict_eq_current (a : option string) (s : Session) :
  JS.strict_eq a (option_map correct_option (currentQuestion s)) = true ->
  exists (x : string) (cq : Question),
    a = Some x /\ currentQuestion s = Some cq /\ x = correct_option cq.
Proof.
  destruct (currentQuestion s) as [cq|]; cbn [option_map]; intros H.
  - apply strict_eq_true in H. eauto.
  - destruct a; discriminate H.
Qed.

Lemma handleAnswer_sound (a : option string) (s : Session) :
  sound s -> sound (handleAnswer a s).
Proof.
  intros [Hs Hr]. destruct (handleAnswer_frame a s) as (Hq & Hi & Ht & _).
  split; [|apply (timeInRange_same s); assumption].
  destruct (showResult s) eqn:E.
  - rewrite handleAnswer_shown by exact E. exact Hs.
  - rewrite (handleAnswer_score a s E).
    destruct (JS.strict_eq _ _) eqn:Eq; [|exact Hs].
    destruct (strict_eq_current a s Eq) as (x & cq & _ & Hc & _).
    pose proof (points_range s cq Hr Hc). lia.
Qed.

Lemma timerEffect_score (s : Session) : score (timerEffect s) = score s.
Proof.
  unfold timerEffect. destruct (timerArmed s); [reflexivity|].
  destruct (timeoutDue s) eqn:E; [|reflexivity].
  apply timeoutDue_true in E. destruct E as (_ & _ & Hs & _).
  rewrite (handleAnswer_score None s Hs). reflexivity.
Qed.

Lemma timerEffect_sound (s : Session) : sound s -> sound (timerEffect s).
Proof.
  intros H. unfold timerEffect. destruct (timerArmed s); [exact H|].
  destruct (timeoutDue s); [|exact H]. apply handleAnswer_sound. exact H.
Qed.

Lemma startQuiz_sound (s : Session) : sound s -> sound (startQuiz s).
Proof.
  intros [Hs _]. split; [exact Hs|].
  intros cq Hc d. right. subst d.
  change (currentQuestion (startQuiz s)) with (questionAt s 0) in Hc.
  change (timeLeft (startQuiz s))
    with (JS.or_default (option_map time_limit (questionAt s 0)) 20).
  rewrite Hc. reflexivity.
Qed.

Lemma countdown_sound (s : Session) :
  0 < timeLeft s -> sound s -> sound (countdown s).
Proof.
  intros Ht [Hs Hr]. split; [exact Hs|].
  intros cq Hc d. subst d.
  change (currentQuestion (countdown s)) with (currentQuestion s) in Hc.
  pose proof (Hr cq Hc) as H. cbv zeta in H.
  change (timeLeft (countdown s)) with (timeLeft s - 1). lia.
Qed.

Lemma nextQuestion_score (s : Session) : score (nextQuestion s) = score s.
Proof.
  unfold nextQuestion. destruct (quiz s ?> questions) as [qs|]; [|reflexivity].
  destruct (_ <? _); [|reflexivity]. destruct (JS.index qs _); reflexivity.
Qed.

Lemma nextQuestion_sound (s : Session) : sound s -> sound (nextQuestion s).
Proof.
  intros [Hs Hr]. split; [rewrite nextQuestion_score; exact Hs|].
  unfold nextQuestion. destruct (quiz s ?> questions) as [qs|] eqn:Eq; [|exact Hr].
  destruct (_ <? _).
  - destruct (JS.index qs (currentQuestionIdx s + 1)) as [nq|] eqn:En.
    + intros cq Hc d. subst d.
      unfold currentQuestion, questionAt in Hc. cbn in Hc.
      rewrite Eq in Hc. cbn in Hc. rewrite En in Hc. injection Hc as <-.
      cbn. destruct (Z.eqb_spec (time_limit nq) 0) as [->|]; [left; lia | right; reflexivity].
    + intros cq Hc. exfalso.
      unfold currentQuestion, questionAt in Hc. cbn in Hc.
      rewrite Eq in Hc. cbn in Hc. rewrite En in Hc. discriminate.
  - apply (timeInRange_same s); auto.
Qed.

Lemma step_sound (o : Op) (s : Session) : sound s -> sound (step o s).
Proof.
  intros H. destruct o as [| |a|]; cbn [step].
  - apply timerEffect_sound, startQuiz_sound, H.
  - unfold tick. destruct (timerArmed s) eqn:E; [|exact H].
    apply timerEffect_sound, countdown_sound; [|exact H].
    apply timerArmed_true in E. tauto.
  - apply timerEffect_sound, handleAnswer_sound, H.
  - apply timerEffect_sound, nextQuestion_sound, H.
Qed.

Lemma run_sound (ops : list Op) (s : Session) : sound s -> sound (run ops s).
Proof.
  revert s. induction ops as [|o rest IH]; intros s H; [exact H|].
  cbn [run]. apply IH, step_sound, H.
Qed.

Lemma initial_sound (qz : option Quiz) : sound (initial qz).
Proof.
  split; [cbn; lia|]. intros cq Hc. exfalso.
  unfold currentQuestion, questionAt in Hc. cbn in Hc.
  destruct qz as [z|]; [|discriminate]. cbn in Hc.
  destruct (questions z); discriminate.
Qed.

Lemma step_score (o : Op) (s : Session) :
  sound s ->
  score s <= score (step o s) /\
  (score s < score (step o s) ->
   exists (x : string) (cq : Question),
     o = SubmitAnswer (Some x) /\ currentQuestion s = Some cq
     /\ x = correct_option cq).
Proof.
  intros [Hs Hr]. destruct o as [| |a|].
  - cbn [step]. rewrite timerEffect_score. cbn. split; lia.
  - cbn [step]. unfold tick. destruct (timerArmed s); [|split; lia].
    rewrite timerEffect_score. cbn. split; lia.
  - rewrite step_submit. destruct (showResult s) eqn:E.
    + rewrite handleAnswer_shown by exact E. split; lia.
    + rewrite (handleAnswer_score a s E).
      destruct (JS.strict_eq _ _) eqn:Eq; [|split; lia].
      destruct (strict_eq_current a s Eq) as (x & cq & -> & Hc & Hx).
      pose proof (points_range s cq Hr Hc). split; [lia|].
      intros _. exists x, cq. auto.
  - cbn [step]. rewrite timerEffect_score, nextQuestion_score. split; lia.
Qed.

Lemma run_score (ops : list Op) (s : Session) :
  sound s -> score s <= score (run ops s).
Proof.
  revert s. induction ops as [|o rest IH]; intros s H; [cbn; lia|].
  cbn [run]. pose proof (proj1 (step_score o s H)).
  pose proof (IH (step o s) (step_sound o s H)). lia.
Qed.

(** C6. Along any sequence of operations from the initial lobby state, for
    any loaded quiz (or none), the score is a non-negative integer, never
    decreases, and grows strictly only at a [submitAnswer] whose option is
    the correct option of the current question. *)
Theorem score_nonnegative_monotone
        (qz : option Quiz) (ops more : list Op) (o : Op) :
  let s := run ops (initial qz) in
  0 <= score s /\
  score s <= score (step o s) /\
  score s <= score (run more s) /\
  (score s < score (step o s) ->
   exists (x : string) (cq : Question),
     o = SubmitAnswer (Some x) /\ currentQuestion s = Some cq
     /\ x = correct_option cq).
Proof.
  intros s.
  assert (H : sound s) by (apply run_sound, initial_sound).
  split; [apply H|].
  split; [apply step_score, H|].
  split; [apply run_score, H | apply step_score, H].
Qed.

(** ** Operations outside their phase *)

Lemma step_start (s : Session) : step Start s = startQuiz s.
Proof.
  cbn [step]. unfold timerEffect. destruct (timerArmed (startQuiz s)); [reflexivity|].
  destruct (timeoutDue (startQuiz s)) eqn:E; [|reflexivity].
  apply timeoutDue_true in E. destruct E as [E _].
  exfalso. exact (or_default_nonzero _ E).
Qed.

Lemma render_phase (s : Session) :
  match render s with
  | Loading => quiz s = None
  | LobbyView => phase s = Lobby
  | GameOverView => phase s = GameOver
  | QuestionView c => phase s = QuestionPhase /\ currentQuestion s = Some c
  | ResultView c => phase s = Result /\ currentQuestion s = Some c
  | RenderError => currentQuestion s = None
  end.
Proof.
  unfold render. destruct (quiz s) as [z|]; [|reflexivity].
  destruct (phase s); try reflexivity; destruct (currentQuestion s); auto.
Qed.

(** What a view offers is valid in the phase it renders; the interval
    callback is the one operation that can arrive in any phase. *)
Lemma offered_valid (o : Op) (s : Session) :
  offered (render s) o = true -> o = Tick \/ validIn (phase s) o.
Proof.
  pose proof (render_phase s) as H.
  destruct (render s), o as [| |[a|]|]; cbn; intros Ho;
    try discriminate Ho; auto; right; tauto.
Qed.

(** An operation that arrives through the view of the committed state
    outside its valid phase changes nothing. *)
Lemma dispatch_invalid (o : Op) (s : Session) :
  ~ validIn (phase s) o -> dispatch o s = s.
Proof.
  intros Hv. unfold dispatch. destruct (offered (render s) o) eqn:E; [|reflexivity].
  destruct (offered_valid o s E) as [-> | H]; [|contradiction].
  cbn [step]. apply tick_idle. exact Hv.
Qed.

(** The same on the screen: an operation of the current view or of the
    interval outside its valid phase leaves the committed state as it is. *)
Lemma control_outside_phase (o : Op) (u : Screen) :
  ~ validIn (phase (shown u)) o -> shown (react (Control o) u) = shown u.
Proof.
  intros Hv. unfold react. destruct (leaving u) as [c|].
  - destruct o; try reflexivity. cbn [shown]. apply tick_idle. exact Hv.
  - pose proof (dispatch_invalid o (shown u) Hv) as H. unfold dispatch in H.
    destruct (offered _ _); [exact H | reflexivity].
Qed.

(** C2 fails in the code for [submitAnswer].  One second into the first
    question of the two-question quiz the player answers B; the session is
    in the result phase, where [submitAnswer] is not valid.  A click on A on
    the question card that is still animating out changes the recorded
    answer, and a further click on B adds the points of the question once
    more: the guard of [handleAnswer] reads the [showResult] of the render
    that created the handler, which is false. *)
Theorem answer_outside_question_phase :
  let u1 := play [Control Start; Control Tick;
                  Control (SubmitAnswer (Some "B"%string))]
                 (initialScreen (Some twoQuestions)) in
  let u2 := react (StaleClick "A"%string) u1 in
  let u3 := react (StaleClick "B"%string) u2 in
  (phase (shown u1) = Result /\
   ~ validIn (phase (shown u1)) (SubmitAnswer (Some "A"%string)) /\
   selectedAnswer (shown u1) = Some "B"%string /\ score (shown u1) = 1450) /\
  (phase (shown u2) = Result /\
   selectedAnswer (shown u2) = Some "A"%string /\ shown u2 <> shown u1) /\
  (phase (shown u3) = Result /\
   score (shown u3) = 2900 /\ shown u3 <> shown u2).
Proof.
  cbv zeta. split; [|split].
  - split; [reflexivity|]. split; [vm_compute; discriminate|].
    split; reflexivity.
  - split; [reflexivity|]. split; [reflexivity|].
    intros H. apply (f_equal selectedAnswer) in H. vm_compute in H.
    discriminate H.
  - split; [reflexivity|]. split; [reflexivity|].
    intros H. apply (f_equal score) in H. vm_compute in H. discriminate H.
Qed.

(** ** Starting an empty quiz *)

Lemma questionAt_empty (s : Session) (qz : Quiz) (i : Z) :
  quiz s = Some qz -> questions qz = Some [] -> questionAt s i = None.
Proof.
  intros Hq Hqs. unfold questionAt. rewrite Hq. cbn [JS.chain]. rewrite Hqs.
  cbn [JS.chain]. unfold JS.index. destruct (i <? 0); [reflexivity|].
  destruct (Z.to_nat i); reflexivity.
Qed.

(** C3, as the code has it.  [start] in the lobby of a loaded quiz without
    questions is not refused: the index becomes 0, the time becomes the
    default 20 and the session leaves the lobby; the score and the recorded
    answer stay as they are. *)
Theorem start_on_empty_quiz (s : Session) (qz : Quiz) :
  quiz s = Some qz ->
  questions qz = Some [] ->
  phase s = Lobby ->
  step Start s = startQuiz s /\
  currentQuestionIdx (startQuiz s) = 0 /\
  timeLeft (startQuiz s) = 20 /\
  phase (startQuiz s) <> Lobby /\
  score (startQuiz s) = score s /\
  selectedAnswer (startQuiz s) = selectedAnswer s.
Proof.
  intros Hq Hqs Hp. split; [apply step_start|].
  split; [reflexivity|]. split.
  - change (timeLeft (startQuiz s))
      with (JS.or_default (option_map time_limit (questionAt s 0)) 20).
    rewrite (questionAt_empty s qz 0 Hq Hqs). reflexivity.
  - split; [|split; reflexivity].
    intros H. apply phase_lobby in H. cbn in H. discriminate H.
Qed.

Lemma start_on_empty_quiz_witness :
  let s := initial (Some emptyQuiz) in
  step Start s = startQuiz s /\
  currentQuestionIdx (startQuiz s) = 0 /\
  timeLeft (startQuiz s) = 20 /\
  phase (startQuiz s) <> Lobby /\
  score (startQuiz s) = score s /\
  selectedAnswer (startQuiz s) = selectedAnswer s.
Proof.
  apply (start_on_empty_quiz (initial (Some emptyQuiz)) emptyQuiz).
  - reflexivity.
  - reflexivity.
  - reflexivity.
Defined.

(** C3 fails: on the empty quiz [start] moves the fresh session out of the
    lobby, to index 0 with 20 seconds, where there is no question to show. *)
Lemma start_on_empty_quiz_transitions :
  let s := initial (Some emptyQuiz) in
  questions emptyQuiz = Some [] /\
  phase s = Lobby /\
  phase (step Start s) = QuestionPhase /\
  currentQuestionIdx s = -1 /\ currentQuestionIdx (step Start s) = 0 /\
  timeLeft s = 0 /\ timeLeft (step Start s) = 20 /\
  render (step Start s) = RenderError /\
  step Start s <> s.
Proof.
  cbv zeta. repeat (split; [reflexivity|]).
  intros H. apply (f_equal timeLeft) in H. vm_compute in H. discriminate H.
Qed.

(** ** Time limits that are not positive *)

(** C9, as the code has it.  A time limit of zero is replaced by 20 both when
    the quiz starts and in the scoring rule; any other value, negative ones
    included, is used as it is.  The creation endpoint stores
    [time_limit || 20]: 20 for a missing or zero value and the submitted
    value otherwise, so a negative limit is stored unchanged and the stored
    limit is positive exactly when the submitted one is missing or not
    negative.  Seed questions get the column default 20. *)
Theorem time_limit_handling :
  (forall (s : Session) (cq : Question),
      questionAt s 0 = Some cq ->
      timeLeft (startQuiz s) = JS.or_default (Some (time_limit cq)) 20) /\
  (forall (s : Session) (cq : Question),
      currentQuestion s = Some cq ->
      points s = scoreFormula (timeLeft s) (JS.or_default (Some (time_limit cq)) 20)) /\
  JS.or_default (Some 0) 20 = 20 /\
  (forall n : Z, n <> 0 -> JS.or_default (Some n) 20 = n) /\
  storedTimeLimit None = 20 /\
  storedTimeLimit (Some 0) = 20 /\
  (forall n : Z, n <> 0 -> storedTimeLimit (Some n) = n) /\
  (forall v : option Z,
      0 < storedTimeLimit v <-> (v = None \/ exists n, v = Some n /\ 0 <= n)) /\
  0 < seedTimeLimit.
Proof.
  assert (Hnz : forall n : Z, n <> 0 -> JS.or_default (Some n) 20 = n).
  { intros n Hn. cbn. destruct (Z.eqb_spec n 0); [contradiction | reflexivity]. }
  split; [|split; [|split; [|split; [|split; [|split; [|split; [|split]]]]]]].
  - intros s cq H.
    change (timeLeft (startQuiz s))
      with (JS.or_default (option_map time_limit (questionAt s 0)) 20).
    rewrite H. reflexivity.
  - intros s cq H. unfold points. rewrite H. reflexivity.
  - reflexivity.
  - exact Hnz.
  - reflexivity.
  - reflexivity.
  - exact Hnz.
  - intros [n|]; cbn.
    + destruct (Z.eqb_spec n 0) as [->|Hn]; split.
      * intros _. right. exists 0. split; [reflexivity | lia].
      * intros _. lia.
      * intros H. right. exists n. split; [reflexivity | lia].
      * intros [H | (m & [= <-] & Hm)]; [discriminate | lia].
    + split; [auto | intros _; lia].
  - reflexivity.
Qed.

Lemma time_limit_handling_witness :
  let s := initial (Some (quizOf [sampleQuestion "A" 0])) in
  timeLeft (startQuiz s)
  = JS.or_default (Some (time_limit (sampleQuestion "A" 0))) 20.
Proof.
  apply (proj1 time_limit_handling
           (initial (Some (quizOf [sampleQuestion "A" 0])))
           (sampleQuestion "A" 0)).
  reflexivity.
Defined.

(** C9 fails on both counts: the player does not use a zero time limit as it
    is (the quiz starts with 20 seconds and the rule divides by 20), and the
    creation endpoint stores a negative time limit as submitted. *)
Lemma zero_defaulted_negative_stored :
  (let zq := sampleQuestion "A" 0 in
   let s := initial (Some (quizOf [zq])) in
   time_limit zq = 0 /\
   currentQuestion (startQuiz s) = Some zq /\
   timeLeft (startQuiz s) = 20 /\
   timeLeft (startQuiz s) <> time_limit zq /\
   points (startQuiz s) = scoreFormula (timeLeft (startQuiz s)) 20) /\
  (storedTimeLimit (Some (-5)) = -5 /\ ~ 0 < storedTimeLimit (Some (-5))).
Proof.
  split; cbv zeta.
  - repeat (split; [reflexivity|]). split; [|reflexivity].
    vm_compute. discriminate.
  - split; [reflexivity|]. vm_compute. discriminate.
Qed.

(** * Further properties of the player *)

(** ** The time shown *)

(** X1. Along any sequence of operations, the time shown for a question with a
    positive time limit stays between 0 and that limit. *)
Theorem timeLeft_within_limit
        (qz : option Quiz) (ops : list Op) (cq : Question) :
  currentQuestion (run ops (initial qz)) = Some cq ->
  0 < time_limit cq ->
  0 <= timeLeft (run ops (initial qz)) <= time_limit cq.
Proof.
  intros Hc Hl.
  destruct (run_sound ops (initial qz) (initial_sound qz)) as [_ Hr].
  specialize (Hr cq Hc). cbn in Hr.
  destruct (Z.eqb_spec (time_limit cq) 0); lia.
Qed.

Lemma timeLeft_within_limit_witness :
  0 <= timeLeft (run [Start; Tick; Tick; SubmitAnswer None; NextQuestion; Tick]
                     (initial (Some twoQuestions)))
    <= time_limit (sampleQuestion "C" 20).
Proof.
  apply (timeLeft_within_limit (Some twoQuestions)
           [Start; Tick; Tick; SubmitAnswer None; NextQuestion; Tick]
           (sampleQuestion "C" 20)).
  - reflexivity.
  - reflexivity.
Defined.

Lemma ticks_negative (s : Session) (n : nat) :
  timeLeft s < 0 -> run (repeat Tick n) s = s.
Proof.
  intros Ht. induction n as [|n IH]; [reflexivity|].
  cbn [repeat run step]. unfold tick.
  assert (Ha : timerArmed s = false).
  { unfold timerArmed. destruct (Z.ltb_spec 0 (timeLeft s)); [lia|].
    apply andb_false_r. }
  rewrite Ha. exact IH.
Qed.

(** X2. A quiz whose first question has a negative time limit starts in the
    question phase with that negative time.  The countdown then never runs:
    ticks leave the whole state as it is, so the question only ends when the
    player answers, and the correct answer is worth the full 1500 points. *)
Theorem negative_limit_never_times_out
        (qz : Quiz) (cq : Question) (rest : list Question) :
  questions qz = Some (cq :: rest) ->
  time_limit cq < 0 ->
  let s := step Start (initial (Some qz)) in
  phase s = QuestionPhase /\
  timeLeft s = time_limit cq /\
  (forall n : nat, run (repeat Tick n) s = s) /\
  score (step (SubmitAnswer (Some (correct_option cq))) s) = 1500.
Proof.
  intros Hq Hl s.
  assert (Hs : s = mkSession (Some qz) 0 0 (time_limit cq) None false false).
  { unfold s. rewrite step_start. unfold startQuiz, questionAt. cbn.
    rewrite Hq. cbn. destruct (Z.eqb_spec (time_limit cq) 0); [lia | reflexivity]. }
  rewrite Hs. split; [reflexivity|]. split; [reflexivity|].
  split; [intros n; apply ticks_negative; exact Hl|].
  rewrite step_submit. rewrite handleAnswer_score by reflexivity.
  unfold currentQuestion, questionAt. cbn. rewrite Hq. cbn.
  rewrite String.eqb_refl. unfold points, currentQuestion, questionAt. cbn.
  rewrite Hq. cbn. destruct (Z.eqb_spec (time_limit cq) 0); [lia|].
  rewrite scoreFormula_full by lia. reflexivity.
Qed.

Lemma negative_limit_never_times_out_witness :
  let s := step Start (initial (Some (quizOf [sampleQuestion "A" (-5)]))) in
  phase s = QuestionPhase /\
  timeLeft s = time_limit (sampleQuestion "A" (-5)) /\
  (forall n : nat, run (repeat Tick n) s = s) /\
  score (step (SubmitAnswer (Some (correct_option (sampleQuestion "A" (-5))))) s)
  = 1500.
Proof.
  apply (negative_limit_never_times_out
           (quizOf [sampleQuestion "A" (-5)]) (sampleQuestion "A" (-5)) []).
  - reflexivity.
  - reflexivity.
Defined.

(** X3. Advancing to a question whose time limit is 0 shows it with no time
    left, so the effect submits the timeout at once: the session is in the
    result phase of the new question with no option recorded and the score
    unchanged. *)
Theorem zero_limit_times_out_at_once
        (s : Session) (qz : Quiz) (qs : list Question) (nq : Question) :
  quiz s = Some qz ->
  questions qz = Some qs ->
  phase s = Result ->
  0 <= currentQuestionIdx s ->
  JS.index qs (currentQuestionIdx s + 1) = Some nq ->
  time_limit nq = 0 ->
  let s' := step NextQuestion s in
  phase s' = Result /\
  currentQuestionIdx s' = currentQuestionIdx s + 1 /\
  timeLeft s' = 0 /\
  selectedAnswer s' = None /\
  score s' = score s.
Proof.
  intros Hq Hqs Hp Hi Hn Hl s'.
  apply phase_result in Hp. destruct Hp as (_ & Ho & Hs).
  assert (Hlen : currentQuestionIdx s + 1 < JS.length qs).
  { unfold JS.index, JS.length in *.
    destruct (Z.ltb_spec (currentQuestionIdx s + 1) 0); [discriminate|].
    assert (nth_error qs (Z.to_nat (currentQuestionIdx s + 1)) <> None)
      by (rewrite Hn; discriminate).
    apply nth_error_Some in H0. lia. }
  assert (Hnext : nextQuestion s
                  = mkSession (quiz s) (currentQuestionIdx s + 1) (score s) 0
                              None false (isGameOver s)).
  { assert (Hqq : quiz s ?> questions = Some qs) by (rewrite Hq; exact Hqs).
    unfold nextQuestion. rewrite Hqq.
    destruct (Z.ltb_spec (currentQuestionIdx s) (JS.length qs - 1)); [|lia].
    rewrite Hn, Hl. reflexivity. }
  unfold s'. cbn [step]. rewrite Hnext. unfold timerEffect.
  assert (Ha : timerArmed (mkSession (quiz s) (currentQuestionIdx s + 1)
                             (score s) 0 None false (isGameOver s)) = false).
  { unfold timerArmed. cbn. apply andb_false_r. }
  rewrite Ha.
  assert (Hd : timeoutDue (mkSession (quiz s) (currentQuestionIdx s + 1)
                             (score s) 0 None false (isGameOver s)) = true).
  { apply timeoutDue_true. cbn. repeat split; [lia | exact Ho]. }
  rewrite Hd.
  set (t := mkSession _ _ _ _ _ _ _).
  destruct (handleAnswer_frame None t) as (_ & Hi' & Ht' & Ho').
  split.
  - apply phase_result. rewrite Hi', Ho', handleAnswer_showResult.
    cbn. repeat split; [lia | exact Ho].
  - rewrite Hi', Ht'. rewrite (handleAnswer_selected None t eq_refl).
    rewrite (handleAnswer_score None t eq_refl). cbn. auto.
Qed.

Lemma zero_limit_times_out_at_once_witness :
  let qz := quizOf [sampleQuestion "B" 20; sampleQuestion "C" 0] in
  let s := run [Start; SubmitAnswer (Some "B"%string)] (initial (Some qz)) in
  let s' := step NextQuestion s in
  phase s' = Result /\
  currentQuestionIdx s' = currentQuestionIdx s + 1 /\
  timeLeft s' = 0 /\
  selectedAnswer s' = None /\
  score s' = score s.
Proof.
  apply (zero_limit_times_out_at_once
           (run [Start; SubmitAnswer (Some "B"%string)]
                (initial (Some (quizOf [sampleQuestion "B" 20;
                                        sampleQuestion "C" 0]))))
           (quizOf [sampleQuestion "B" 20; sampleQuestion "C" 0])
           [sampleQuestion "B" 20; sampleQuestion "C" 0]
           (sampleQuestion "C" 0)).
  - reflexivity.
  - reflexivity.
  - reflexivity.
  - apply Z.leb_le. reflexivity.
  - reflexivity.
  - reflexivity.
Defined.

(** ** What the player sees *)



(** X5. The caption of the button of the result card tells what the button does:
    it announces the results exactly when [nextQuestion] ends the game, and
    the next question exactly when [nextQuestion] returns to the question
    phase. *)
Theorem next_caption_matches
        (s : Session) (qz : Quiz) (qs : list Question) :
  quiz s = Some qz ->
  questions qz = Some qs ->
  phase s = Result ->
  -1 <= currentQuestionIdx s ->
  (nextCaption s qs = CaptionShowResults <-> phase (nextQuestion s) = GameOver) /\
  (nextCaption s qs = CaptionNextQuestion
   <-> phase (nextQuestion s) = QuestionPhase).
Proof.
  intros Hq Hqs Hp Hi.
  apply phase_result in Hp. destruct Hp as (Hn & Ho & Hs).
  assert (Hqq : quiz s ?> questions = Some qs) by (rewrite Hq; exact Hqs).
  unfold nextCaption, nextQuestion. rewrite Hqq.
  destruct (Z.ltb_spec (currentQuestionIdx s) (JS.length qs - 1)) as [Hlt|Hge].
  - destruct (index_in_range qs (currentQuestionIdx s + 1)) as [nq Hnq]; [lia|].
    rewrite Hnq.
    assert (Hph : phase (setShowResult false
                           (setSelectedAnswer None
                              (setTimeLeft (time_limit nq)
                                 (setCurrentQuestionIdx
                                    (currentQuestionIdx s + 1) s))))
                  = QuestionPhase).
    { apply phase_question. cbn. repeat split; [lia | exact Ho]. }
    rewrite Hph. split; split; intros H; try discriminate H; reflexivity.
  - assert (Hph : phase (setIsGameOver true s) = GameOver).
    { apply phase_gameOver. cbn. auto. }
    rewrite Hph. split; split; intros H; try discriminate H; reflexivity.
Qed.

Lemma next_caption_matches_witness :
  let s := run [Start; SubmitAnswer None] (initial (Some twoQuestions)) in
  let qs := [sampleQuestion "B" 20; sampleQuestion "C" 20] in
  (nextCaption s qs = CaptionShowResults <-> phase (nextQuestion s) = GameOver) /\
  (nextCaption s qs = CaptionNextQuestion
   <-> phase (nextQuestion s) = QuestionPhase).
Proof.
  apply (next_caption_matches
           (run [Start; SubmitAnswer None] (initial (Some twoQuestions)))
           twoQuestions [sampleQuestion "B" 20; sampleQuestion "C" 20]).
  - reflexivity.
  - reflexivity.
  - reflexivity.
  - apply Z.leb_le. reflexivity.
Defined.

(** X6. While a question of the list is on screen the progress bar is above 0
    and at most 100 percent, and it is full exactly on the last question. *)
Theorem progress_bar_range (s : Session) (qs : list Question) :
  0 <= currentQuestionIdx s < JS.length qs ->
  (0 < progressWidth s qs)%Q /\ (progressWidth s qs <= 100)%Q /\
  ((progressWidth s qs == 100)%Q <-> currentQuestionIdx s = JS.length qs - 1).
Proof.
  intros [H0 H1]. unfold progressWidth.
  set (i := currentQuestionIdx s) in *. set (n := JS.length qs) in *.
  destruct n as [|p|p]; try lia.
  unfold Qdiv, Qinv, Qmult, Qlt, Qle, Qeq, inject_Z.
  cbn -[Z.mul Z.sub Z.add Pos.mul]. rewrite ?Pos2Z.inj_mul.
  repeat split; try lia.
Qed.

Lemma progress_bar_range_witness :
  let s := run [Start] (initial (Some twoQuestions)) in
  let qs := [sampleQuestion "B" 20; sampleQuestion "C" 20] in
  (0 < progressWidth s qs)%Q /\ (progressWidth s qs <= 100)%Q /\
  ((progressWidth s qs == 100)%Q <-> currentQuestionIdx s = JS.length qs - 1).
Proof.
  apply (progress_bar_range
           (run [Start] (initial (Some twoQuestions)))
           [sampleQuestion "B" 20; sampleQuestion "C" 20]).
  split; [apply Z.leb_le; reflexivity | reflexivity].
Defined.

(** ** Sessions driven through the view *)

Lemma timerEffect_cases (s : Session) :
  timerEffect s = s \/
  (timerEffect s = handleAnswer None s /\ showResult s = false /\
   isGameOver s = false /\ 0 <= currentQuestionIdx s /\ timeLeft s = 0).
Proof.
  unfold timerEffect. destruct (timerArmed s); [auto|].
  destruct (timeoutDue s) eqn:E; [|auto].
  apply timeoutDue_true in E. right. tauto.
Qed.

Lemma timerEffect_idx (s : Session) :
  currentQuestionIdx (timerEffect s) = currentQuestionIdx s.
Proof.
  destruct (timerEffect_cases s) as [-> | (-> & _)]; [reflexivity|].
  apply (handleAnswer_frame None s).
Qed.

Lemma nextQuestion_idx (s : Session) :
  currentQuestionIdx (nextQuestion s) = currentQuestionIdx s \/
  currentQuestionIdx (nextQuestion s) = currentQuestionIdx s + 1.
Proof.
  unfold nextQuestion. destruct (quiz s ?> questions) as [qs|]; [|auto].
  destruct (_ <? _); [|auto]. destruct (JS.index qs _); cbn; auto.
Qed.

(** X7. Through the view the index never moves back and never skips: an
    operation leaves it as it is or takes it one further, and it can only
    move on [Start] in the lobby and on [NextQuestion] in the result phase. *)
Theorem dispatch_index_forward (o : Op) (s : Session) :
  (currentQuestionIdx (dispatch o s) = currentQuestionIdx s \/
   currentQuestionIdx (dispatch o s) = currentQuestionIdx s + 1) /\
  (currentQuestionIdx (dispatch o s) <> currentQuestionIdx s ->
   (o = Start /\ phase s = Lobby) \/ (o = NextQuestion /\ phase s = Result)).
Proof.
  assert (Hi : currentQuestionIdx (tick s) = currentQuestionIdx s).
  { unfold tick. destruct (timerArmed s); [|reflexivity].
    rewrite timerEffect_idx. reflexivity. }
  unfold dispatch. destruct (offered (render s) o) eqn:E;
    [|split; [auto | intros H; contradiction]].
  destruct (offered_valid o s E) as [-> | Hv].
  - cbn [step]. rewrite Hi. split; [auto | intros H; contradiction].
  - destruct o as [| |a|]; cbn [validIn] in Hv.
    + rewrite step_start. apply phase_lobby in Hv as Hl. cbn. rewrite Hl.
      split; [right; reflexivity | intros _; left; auto].
    + cbn [step]. rewrite Hi. split; [auto | intros H; contradiction].
    + rewrite step_submit. destruct (handleAnswer_frame a s) as (_ & -> & _).
      split; [auto | intros H; contradiction].
    + cbn [step]. rewrite timerEffect_idx.
      split; [apply nextQuestion_idx | intros _; right; auto].
Qed.

Lemma answered_shown (s s' : Session) :
  currentQuestionIdx s' = currentQuestionIdx s ->
  (showResult s = true -> showResult s' = true) ->
  answered s <= answered s'.
Proof.
  intros Hi Hs. unfold answered. rewrite Hi.
  destruct (showResult s); [rewrite Hs by reflexivity; lia|].
  destruct (showResult s'); lia.
Qed.

Lemma handleAnswer_ui (qz : Quiz) (qs : list Question)
      (a : option string) (s : Session) :
  uiInvariant qz qs s -> 0 <= currentQuestionIdx s -> isGameOver s = false ->
  uiInvariant qz qs (handleAnswer a s).
Proof.
  intros H H0 Ho.
  destruct (showResult s) eqn:Es.
  { rewrite handleAnswer_shown by exact Es. exact H. }
  destruct H as (Hq & Hqs & Hi & Hl & Hg & Hsound & Hsc).
  destruct (handleAnswer_frame a s) as (Fq & Fi & Ft & Fo).
  unfold uiInvariant. rewrite Fq, Fi, Fo.
  split; [exact Hq|]. split; [exact Hqs|]. split; [exact Hi|].
  split; [intros; lia|]. split; [intros H; rewrite Ho in H; discriminate|].
  split; [apply handleAnswer_sound; exact Hsound|].
  assert (Ha : answered (handleAnswer a s) = answered s + 1).
  { unfold answered. rewrite Fi, handleAnswer_showResult, Es. lia. }
  rewrite Ha, (handleAnswer_score a s Es).
  destruct (JS.strict_eq _ _) eqn:Eq; [|lia].
  destruct (strict_eq_current a s Eq) as (x & cq & _ & Hc & _).
  pose proof (points_range s cq (proj2 Hsound) Hc). lia.
Qed.

Lemma timerEffect_ui (qz : Quiz) (qs : list Question) (s : Session) :
  uiInvariant qz qs s -> uiInvariant qz qs (timerEffect s).
Proof.
  intros H. destruct (timerEffect_cases s) as [-> | (-> & _ & Ho & Hi & _)];
    [exact H|]. apply handleAnswer_ui; assumption.
Qed.

Lemma tick_ui (qz : Quiz) (qs : list Question) (s : Session) :
  uiInvariant qz qs s -> uiInvariant qz qs (tick s).
Proof.
  intros H. unfold tick. destruct (timerArmed s) eqn:Ea; [|exact H].
  apply timerEffect_ui.
  apply timerArmed_true in Ea. destruct Ea as (H0 & Hs & Ho & Ht).
  destruct H as (Hq & Hqs & Hi & Hl & Hg & Hsound & Hsc).
  unfold uiInvariant.
  change (quiz (countdown s)) with (quiz s).
  change (currentQuestionIdx (countdown s)) with (currentQuestionIdx s).
  change (showResult (countdown s)) with (showResult s).
  change (isGameOver (countdown s)) with (isGameOver s).
  change (score (countdown s)) with (score s).
  change (answered (countdown s)) with (answered s).
  repeat split; try tauto; try lia; apply countdown_sound; assumption.
Qed.

Lemma startQuiz_ui (qz : Quiz) (qs : list Question) (s : Session) :
  qs <> [] -> uiInvariant qz qs s -> currentQuestionIdx s = -1 ->
  uiInvariant qz qs (startQuiz s).
Proof.
  intros Hne (Hq & Hqs & Hi & Hl & Hg & Hsound & Hsc) Hm.
  destruct (Hl Hm) as (Hs & Ho & Hz).
  assert (Hlen : 1 <= JS.length qs).
  { unfold JS.length. destruct qs; [contradiction | cbn [List.length]; lia]. }
  unfold uiInvariant.
  change (quiz (startQuiz s)) with (quiz s).
  change (currentQuestionIdx (startQuiz s)) with 0.
  change (showResult (startQuiz s)) with (showResult s).
  change (isGameOver (startQuiz s)) with (isGameOver s).
  change (score (startQuiz s)) with (score s).
  split; [exact Hq|]. split; [exact Hqs|]. split; [lia|].
  split; [intros; lia|]. split; [intros H; rewrite Ho in H; discriminate|].
  split; [apply startQuiz_sound; exact Hsound|].
  unfold answered.
  change (currentQuestionIdx (startQuiz s)) with 0.
  change (showResult (startQuiz s)) with (showResult s).
  rewrite Hs, Hz. lia.
Qed.

Ltac session_fields :=
  cbn [quiz currentQuestionIdx score timeLeft selectedAnswer showResult
       isGameOver setCurrentQuestionIdx setScore setTimeLeft
       setSelectedAnswer setShowResult setIsGameOver].

Lemma nextQuestion_ui (qz : Quiz) (qs : list Question) (s : Session) :
  uiInvariant qz qs s -> phase s = Result ->
  uiInvariant qz qs (nextQuestion s).
Proof.
  intros Hinv Hp. pose proof (nextQuestion_sound s (proj1 (proj2 (proj2 (proj2
    (proj2 (proj2 Hinv))))))) as Hsound'.
  destruct Hinv as (Hq & Hqs & Hi & Hl & Hg & Hsound & Hsc).
  apply phase_result in Hp. destruct Hp as (Hn & Ho & Hs).
  assert (Hans : answered s = currentQuestionIdx s + 1).
  { unfold answered. rewrite Hs. lia. }
  assert (Hqq : quiz s ?> questions = Some qs) by (rewrite Hq; exact Hqs).
  revert Hsound'. unfold nextQuestion. rewrite Hqq.
  destruct (Z.ltb_spec (currentQuestionIdx s) (JS.length qs - 1)) as [Hlt|Hge].
  - destruct (index_in_range qs (currentQuestionIdx s + 1)) as [nq Hnq]; [lia|].
    rewrite Hnq. intros Hsound'. unfold uiInvariant, answered in *.
    session_fields.
    split; [exact Hq|]. split; [exact Hqs|]. split; [lia|].
    split; [intros; lia|]. split; [intros H; rewrite Ho in H; discriminate|].
    split; [exact Hsound'|]. lia.
  - intros Hsound'. unfold uiInvariant, answered in *. session_fields.
    split; [exact Hq|]. split; [exact Hqs|]. split; [lia|].
    split; [intros; lia|]. split; [intros _; split; [exact Hs | lia]|].
    split; [exact Hsound'|]. rewrite Hs. lia.
Qed.

Lemma dispatch_ui (qz : Quiz) (qs : list Question) (o : Op) (s : Session) :
  qs <> [] -> uiInvariant qz qs s -> uiInvariant qz qs (dispatch o s).
Proof.
  intros Hne H. unfold dispatch.
  destruct (offered (render s) o) eqn:E; [|exact H].
  destruct (offered_valid o s E) as [-> | Hv]; [apply tick_ui; exact H|].
  destruct o as [| |a|]; cbn [validIn] in Hv.
  - rewrite step_start. apply startQuiz_ui; try assumption.
    apply phase_lobby. exact Hv.
  - apply tick_ui. exact H.
  - rewrite step_submit. apply phase_question in Hv.
    destruct Hv as (Hn & Ho & _). apply handleAnswer_ui; try assumption.
    destruct H as (_ & _ & Hi & _). lia.
  - cbn [step]. apply timerEffect_ui, nextQuestion_ui; assumption.
Qed.

Lemma runUi_ui (qz : Quiz) (qs : list Question) (ops : list Op) (s : Session) :
  qs <> [] -> uiInvariant qz qs s -> uiInvariant qz qs (runUi ops s).
Proof.
  intros Hne. revert s. induction ops as [|o rest IH]; intros s H; [exact H|].
  cbn [runUi]. apply IH, dispatch_ui; assumption.
Qed.

Lemma initial_ui (qz : Quiz) (qs : list Question) :
  questions qz = Some qs -> qs <> [] -> uiInvariant qz qs (initial (Some qz)).
Proof.
  intros Hqs Hne. unfold uiInvariant, answered. cbn.
  assert (Hlen : 1 <= JS.length qs).
  { unfold JS.length. destruct qs; [contradiction | cbn [List.length]; lia]. }
  split; [reflexivity|]. split; [exact Hqs|]. split; [lia|].
  split; [auto|]. split; [discriminate|].
  split; [apply initial_sound | lia].
Qed.

Lemma ui_current_question (qz : Quiz) (qs : list Question) (s : Session) :
  uiInvariant qz qs s -> phase s <> Lobby ->
  exists cq, currentQuestion s = Some cq.
Proof.
  intros (Hq & Hqs & Hi & _) Hp. rewrite phase_lobby in Hp.
  unfold currentQuestion, questionAt. rewrite Hq. cbn [JS.chain].
  rewrite Hqs. cbn [JS.chain]. apply index_in_range. lia.
Qed.

Lemma ui_render_ok (qz : Quiz) (qs : list Question) (s : Session) :
  uiInvariant qz qs s -> render s <> RenderError.
Proof.
  intros H. pose proof (ui_current_question qz qs s H) as Hcur.
  destruct H as (Hq & _). unfold render. rewrite Hq.
  destruct (phase s) eqn:Ep; try discriminate;
    destruct Hcur as [cq ->]; discriminate.
Qed.

(** X8. However a quiz with at least one question is driven through the view,
    the index stays between -1 and the last index of the list and the screen
    is the lobby, a question of the list, its result card or the final
    screen: the render function never meets a missing question. *)
Theorem ui_session_never_breaks
        (qz : Quiz) (qs : list Question) (ops : list Op) :
  questions qz = Some qs ->
  qs <> [] ->
  let s := runUi ops (initial (Some qz)) in
  -1 <= currentQuestionIdx s <= JS.length qs - 1 /\
  render s <> RenderError /\
  render s <> Loading /\
  (phase s <> Lobby -> exists cq, currentQuestion s = Some cq).
Proof.
  intros Hqs Hne s.
  pose proof (runUi_ui qz qs ops _ Hne (initial_ui qz qs Hqs Hne)) as Hinv.
  fold s in Hinv.
  split; [apply Hinv|].
  split; [apply (ui_render_ok qz qs), Hinv|].
  split; [|apply (ui_current_question qz qs), Hinv].
  destruct Hinv as (Hq & _). unfold render. rewrite Hq.
  destruct (phase s); try discriminate;
    destruct (currentQuestion s); discriminate.
Qed.

Lemma ui_session_never_breaks_witness :
  let s := runUi [Start; NextQuestion; Start; Tick; SubmitAnswer (Some "B"%string);
                  SubmitAnswer (Some "C"%string); NextQuestion]
                 (initial (Some twoQuestions)) in
  -1 <= currentQuestionIdx s
  <= JS.length [sampleQuestion "B" 20; sampleQuestion "C" 20] - 1 /\
  render s <> RenderError /\
  render s <> Loading /\
  (phase s <> Lobby -> exists cq, currentQuestion s = Some cq).
Proof.
  apply (ui_session_never_breaks twoQuestions
           [sampleQuestion "B" 20; sampleQuestion "C" 20]
           [Start; NextQuestion; Start; Tick; SubmitAnswer (Some "B"%string);
            SubmitAnswer (Some "C"%string); NextQuestion]).
  - reflexivity.
  - discriminate.
Defined.

(** X9. Driven through the view, a game is over only on the last question and
    only after that question has got its answer or timeout. *)
Theorem ui_game_over_after_last_question
        (qz : Quiz) (qs : list Question) (ops : list Op) :
  questions qz = Some qs ->
  qs <> [] ->
  let s := runUi ops (initial (Some qz)) in
  phase s = GameOver ->
  currentQuestionIdx s = JS.length qs - 1 /\
  showResult s = true /\
  answered s = JS.length qs.
Proof.
  intros Hqs Hne s Hp.
  destruct (runUi_ui qz qs ops _ Hne (initial_ui qz qs Hqs Hne))
    as (_ & _ & Hi & _ & Hg & _). fold s in Hi, Hg.
  apply phase_gameOver in Hp. destruct Hp as [_ Ho].
  destruct (Hg Ho) as [Hs Hl]. unfold answered. rewrite Hs, Hl.
  repeat split. lia.
Qed.

Lemma ui_game_over_after_last_question_witness :
  let s := runUi [Start; SubmitAnswer (Some "A"%string); NextQuestion;
                  SubmitAnswer (Some "C"%string); NextQuestion]
                 (initial (Some twoQuestions)) in
  currentQuestionIdx s
  = JS.length [sampleQuestion "B" 20; sampleQuestion "C" 20] - 1 /\
  showResult s = true /\
  answered s = JS.length [sampleQuestion "B" 20; sampleQuestion "C" 20].
Proof.
  apply (ui_game_over_after_last_question twoQuestions
           [sampleQuestion "B" 20; sampleQuestion "C" 20]
           [Start; SubmitAnswer (Some "A"%string); NextQuestion;
            SubmitAnswer (Some "C"%string); NextQuestion]).
  - reflexivity.
  - discriminate.
  - reflexivity.
Defined.

(** ** The leaving question card *)

(** *** The score is only ever added to *)

Lemma handleAnswerFrom_addScore
      (c : Session) (a : option string) (k : Z) (s : Session) :
  handleAnswerFrom c a (addScore k s) = addScore k (handleAnswerFrom c a s).
Proof.
  unfold handleAnswerFrom. destruct (showResult c); [reflexivity|].
  destruct (JS.strict_eq _ _); [|reflexivity].
  unfold addScore, setScore, setShowResult, setSelectedAnswer. session_fields.
  f_equal. lia.
Qed.

Lemma timerEffect_addScore (k : Z) (s : Session) :
  timerEffect (addScore k s) = addScore k (timerEffect s).
Proof.
  unfold timerEffect.
  change (timerArmed (addScore k s)) with (timerArmed s).
  change (timeoutDue (addScore k s)) with (timeoutDue s).
  destruct (timerArmed s); [reflexivity|].
  destruct (timeoutDue s); [|reflexivity].
  change (handleAnswer None (addScore k s))
    with (handleAnswerFrom s None (addScore k s)).
  apply handleAnswerFrom_addScore.
Qed.

Lemma handled_addScore (o : Op) (k : Z) (s : Session) :
  handled o (addScore k s) = addScore k (handled o s).
Proof.
  destruct o as [| |a|]; cbn [handled].
  - reflexivity.
  - change (timerArmed (addScore k s)) with (timerArmed s).
    destruct (timerArmed s); reflexivity.
  - change (handleAnswer a (addScore k s))
      with (handleAnswerFrom s a (addScore k s)).
    apply handleAnswerFrom_addScore.
  - unfold nextQuestion.
    change (quiz (addScore k s) ?> questions) with (quiz s ?> questions).
    destruct (quiz s ?> questions) as [qs|]; [|reflexivity].
    change (currentQuestionIdx (addScore k s)) with (currentQuestionIdx s).
    destruct (_ <? _); [|reflexivity].
    destruct (JS.index qs _); reflexivity.
Qed.

Lemma step_handled (o : Op) (s : Session) :
  step o s = if match o with Tick => negb (timerArmed s) | _ => false end
             then s else timerEffect (handled o s).
Proof.
  destruct o; cbn [step handled]; try reflexivity.
  unfold tick. destruct (timerArmed s); reflexivity.
Qed.

Lemma step_addScore (o : Op) (k : Z) (s : Session) :
  step o (addScore k s) = addScore k (step o s).
Proof.
  rewrite !step_handled.
  change (timerArmed (addScore k s)) with (timerArmed s).
  destruct (match o with Tick => negb (timerArmed s) | _ => false end);
    [reflexivity|].
  rewrite handled_addScore. apply timerEffect_addScore.
Qed.

(** *** What a leaving card can do *)

(** With no card leaving, the screen is the view of the committed state. *)
Lemma react_dispatch (o : Op) (u : Screen) :
  leaving u = None -> shown (react (Control o) u) = dispatch o (shown u).
Proof.
  intros H. unfold react, dispatch. rewrite H.
  destruct (offered _ _); reflexivity.
Qed.

Lemma showsCard_true (s : Session) :
  showsCard s = true -> showResult s = false.
Proof.
  unfold showsCard. pose proof (render_phase s) as H.
  destruct (render s); try discriminate. intros _.
  destruct H as [H _]. apply phase_question in H. tauto.
Qed.

Lemma handled_sound (o : Op) (s : Session) : sound s -> sound (handled o s).
Proof.
  intros H. destruct o as [| |a|]; cbn [handled].
  - apply startQuiz_sound, H.
  - destruct (timerArmed s) eqn:E; [|exact H].
    apply countdown_sound; [|exact H]. apply timerArmed_true in E. tauto.
  - apply handleAnswer_sound, H.
  - apply nextQuestion_sound, H.
Qed.

Lemma tick_shown (s : Session) : showResult s = true -> tick s = s.
Proof.
  intros H. unfold tick, timerArmed. rewrite H. cbn.
  rewrite andb_false_r. reflexivity.
Qed.

(** The click on a leaving card: the option is recorded and, when it is the
    correct one of the card's question, the card's points are added. *)
Lemma staleClick_effect (c : Session) (a : string) (s : Session) :
  showResult c = false ->
  handleAnswerFrom c (Some a) s =
  addScore (if JS.strict_eq (Some a) (option_map correct_option (currentQuestion c))
            then points c else 0)
           (setShowResult true (setSelectedAnswer (Some a) s)).
Proof.
  intros H. unfold handleAnswerFrom. rewrite H.
  destruct (JS.strict_eq _ _);
    unfold addScore, setScore, setShowResult, setSelectedAnswer; session_fields;
    f_equal; lia.
Qed.

Lemma staleClick_gain (c : Session) (a : string) :
  timeInRange c ->
  0 <= (if JS.strict_eq (Some a) (option_map correct_option (currentQuestion c))
        then points c else 0) <= 1500.
Proof.
  intros Hr. destruct (JS.strict_eq _ _) eqn:E; [|lia].
  destruct (strict_eq_current _ c E) as (x & cq & _ & Hc & _).
  pose proof (points_range c cq Hr Hc). lia.
Qed.

Lemma uiInvariant_same (qz : Quiz) (qs : list Question) (s s' : Session) :
  quiz s' = quiz s -> currentQuestionIdx s' = currentQuestionIdx s ->
  score s' = score s -> timeLeft s' = timeLeft s ->
  showResult s' = showResult s -> isGameOver s' = isGameOver s ->
  uiInvariant qz qs s -> uiInvariant qz qs s'.
Proof.
  intros Hq Hi Hsc Ht Hs Ho (H1 & H2 & H3 & H4 & H5 & [H6 H7] & H8).
  unfold uiInvariant, sound, answered in *. rewrite Hq, Hi, Hsc, Hs, Ho.
  repeat (split; [assumption|]).
  split; [split; [exact H6 | apply (timeInRange_same s); assumption]|].
  exact H8.
Qed.

Lemma staleClicks_cons (e : Event) (es : list Event) :
  staleClicks (e :: es) = staleClicks [e] + staleClicks es.
Proof. destruct e; cbn [staleClicks]; lia. Qed.

Lemma staleClicks_nonneg (es : list Event) : 0 <= staleClicks es.
Proof.
  induction es as [|e es IH]; [cbn; lia|].
  rewrite staleClicks_cons. destruct e; cbn [staleClicks]; lia.
Qed.

Lemma screenInvariant_more (qz : Quiz) (qs : list Question) (n m : Z)
      (u : Screen) :
  n <= m -> screenInvariant qz qs n u -> screenInvariant qz qs m u.
Proof.
  intros Hnm [(k & Hk & Hinv) Hl]. split; [|exact Hl].
  exists k. split; [lia | exact Hinv].
Qed.

Lemma react_invariant (qz : Quiz) (qs : list Question) (n : Z)
      (e : Event) (u : Screen) :
  qs <> [] -> screenInvariant qz qs n u ->
  screenInvariant qz qs (n + staleClicks [e]) (react e u).
Proof.
  intros Hne Hu.
  assert (Hsame : screenInvariant qz qs (n + staleClicks [e]) u).
  { apply (screenInvariant_more qz qs n); [|exact Hu].
    pose proof (staleClicks_nonneg [e]). lia. }
  destruct Hu as [(k & Hk & Hinv) Hl].
  unfold react. destruct (leaving u) as [c|] eqn:El.
  - destruct (Hl c eq_refl) as (Hs & Hc & Hr).
    destruct e as [o|a|].
    + destruct o; try exact Hsame.
      rewrite (tick_shown _ Hs). split.
      * exists k. cbn [shown staleClicks]. split; [lia | exact Hinv].
      * cbn [leaving shown]. intros c' [= <-]. auto.
    + destruct (existsb (String.eqb a) answerButtons); [|exact Hsame].
      pose proof (staleClick_gain c a Hr) as Hg.
      rewrite (staleClick_effect c a (shown u) Hc).
      set (g := if JS.strict_eq _ _ then points c else 0) in *.
      split.
      * exists (k + g). cbn [shown staleClicks]. split; [lia|].
        apply (uiInvariant_same qz qs (addScore (- k) (shown u)));
          try reflexivity; [| |exact Hinv].
        -- unfold addScore. session_fields. lia.
        -- unfold addScore. session_fields. symmetry. exact Hs.
      * cbn [leaving shown]. intros c' [= <-].
        split; [reflexivity | auto].
    + split.
      * exists k. cbn [shown staleClicks]. split; [lia | exact Hinv].
      * cbn [leaving]. discriminate.
  - destruct e as [o|a|]; try exact Hsame.
    destruct (offered (render (shown u)) o) eqn:Eo; [|exact Hsame].
    pose proof (dispatch_ui qz qs o _ Hne Hinv) as Hd. unfold dispatch in Hd.
    change (render (addScore (- k) (shown u))) with (render (shown u)) in Hd.
    rewrite Eo, step_addScore in Hd. split.
    + exists k. cbn [shown staleClicks]. split; [lia | exact Hd].
    + cbn [leaving shown]. intros c. unfold cardLeft.
      pose proof (render_phase (step o (shown u))) as Hp.
      destruct (render (step o (shown u))); try discriminate.
      destruct Hp as [Hp _]. apply phase_result in Hp.
      destruct Hp as (_ & _ & Hs).
      assert (Hsound : sound (addScore (- k) (shown u))) by apply Hinv.
      destruct (showsCard (handled o (shown u))) eqn:E1.
      * intros [= <-]. split; [exact Hs|].
        split; [apply showsCard_true; exact E1|].
        pose proof (handled_sound o _ Hsound) as [_ Hh].
        rewrite handled_addScore in Hh. exact Hh.
      * destruct (showsCard (shown u)) eqn:E2; [|discriminate].
        intros [= <-]. split; [exact Hs|].
        split; [apply showsCard_true; exact E2 | exact (proj2 Hsound)].
Qed.

Lemma play_invariant (qz : Quiz) (qs : list Question) (es : list Event) :
  qs <> [] ->
  forall (n : Z) (u : Screen),
    screenInvariant qz qs n u ->
    screenInvariant qz qs (n + staleClicks es) (play es u).
Proof.
  intros Hne. induction es as [|e es IH]; intros n u H.
  - cbn [play staleClicks]. rewrite Z.add_0_r. exact H.
  - cbn [play]. rewrite staleClicks_cons, Z.add_assoc.
    apply IH, react_invariant; assumption.
Qed.

Lemma initialScreen_invariant (qz : Quiz) (qs : list Question) :
  questions qz = Some qs -> qs <> [] ->
  screenInvariant qz qs 0 (initialScreen (Some qz)).
Proof.
  intros Hqs Hne. split.
  - exists 0. split; [lia|]. exact (initial_ui qz qs Hqs Hne).
  - cbn. discriminate.
Qed.

(** X10. On the screen, clicks on a question card that is still animating
    out included, the score is at most 1500 times the number of questions
    answered so far plus the number of such clicks; without such a click
    every question is scored at most once, and the score is at most 1500
    times the number of questions of the quiz. *)
Theorem screen_score_cap (qz : Quiz) (qs : list Question) (es : list Event) :
  questions qz = Some qs ->
  qs <> [] ->
  let u := play es (initialScreen (Some qz)) in
  0 <= score (shown u) <= 1500 * (answered (shown u) + staleClicks es) /\
  answered (shown u) <= JS.length qs /\
  (staleClicks es = 0 -> score (shown u) <= 1500 * JS.length qs).
Proof.
  intros Hqs Hne u.
  destruct (play_invariant qz qs es Hne 0 _ (initialScreen_invariant qz qs Hqs Hne))
    as [(k & Hk & Hinv) _]. fold u in Hinv.
  destruct Hinv as (_ & _ & Hi & _ & _ & [H0 _] & Hsc).
  change (currentQuestionIdx (addScore (- k) (shown u)))
    with (currentQuestionIdx (shown u)) in Hi.
  change (answered (addScore (- k) (shown u))) with (answered (shown u)) in Hsc.
  change (score (addScore (- k) (shown u))) with (score (shown u) + - k)
    in H0, Hsc.
  assert (Ha : answered (shown u) <= JS.length qs).
  { unfold answered. destruct (showResult (shown u)); lia. }
  split; [lia|]. split; [exact Ha|]. intros Hz. lia.
Qed.

Lemma screen_score_cap_witness :
  let u := play [Control Start; Control (SubmitAnswer (Some "B"%string));
                 StaleClick "B"%string; ExitComplete; Control NextQuestion]
                (initialScreen (Some twoQuestions)) in
  0 <= score (shown u)
  <= 1500 * (answered (shown u)
             + staleClicks [Control Start;
                            Control (SubmitAnswer (Some "B"%string));
                            StaleClick "B"%string; ExitComplete;
                            Control NextQuestion]) /\
  answered (shown u)
  <= JS.length [sampleQuestion "B" 20; sampleQuestion "C" 20] /\
  (staleClicks [Control Start; Control (SubmitAnswer (Some "B"%string));
                StaleClick "B"%string; ExitComplete; Control NextQuestion] = 0 ->
   score (shown u)
   <= 1500 * JS.length [sampleQuestion "B" 20; sampleQuestion "C" 20]).
Proof.
  apply (screen_score_cap twoQuestions
           [sampleQuestion "B" 20; sampleQuestion "C" 20]
           [Control Start; Control (SubmitAnswer (Some "B"%string));
            StaleClick "B"%string; ExitComplete; Control NextQuestion]).
  - reflexivity.
  - discriminate.
Defined.

(** ** Whole games *)

Lemma offered_tick (v : View) : offered v Tick = true.
Proof. destruct v; reflexivity. Qed.

Lemma runUi_app (a b : list Op) (s : Session) :
  runUi (a ++ b) s = runUi b (runUi a s).
Proof.
  revert s. induction a as [|o a IH]; intros s; [reflexivity|].
  cbn [app runUi]. apply IH.
Qed.

Lemma runUi_ticks (n : nat) (s : Session) :
  runUi (repeat Tick n) s = run (repeat Tick n) s.
Proof.
  revert s. induction n as [|n IH]; intros s; [reflexivity|].
  cbn [repeat runUi run]. unfold dispatch. rewrite offered_tick. apply IH.
Qed.

Section OnAQuiz.

Variable qz : Quiz.
Variable qs : list Question.
Hypothesis Hqs : questions qz = Some qs.

Lemma index_middle (pre rest : list Question) (cq : Question) :
  JS.index (pre ++ cq :: rest) (JS.length pre) = Some cq.
Proof.
  unfold JS.index, JS.length.
  destruct (Z.ltb_spec (Z.of_nat (List.length pre)) 0); [lia|].
  rewrite Nat2Z.id, nth_error_app2 by lia. rewrite Nat.sub_diag. reflexivity.
Qed.

Lemma current_middle (pre rest : list Question) (cq : Question)
      (sc t : Z) (sel : option string) (shown over : bool) :
  qs = pre ++ cq :: rest ->
  currentQuestion (mkSession (Some qz) (JS.length pre) sc t sel shown over)
  = Some cq.
Proof.
  intros E. unfold currentQuestion, questionAt. cbn. rewrite Hqs. cbn.
  rewrite E. apply index_middle.
Qed.

Lemma length_snoc (pre : list Question) (cq : Question) :
  JS.length (pre ++ [cq]) = JS.length pre + 1.
Proof. unfold JS.length. rewrite length_app. cbn. lia. Qed.

Lemma length_middle (pre rest : list Question) (cq : Question) :
  JS.length (pre ++ cq :: rest) = JS.length pre + 1 + JS.length rest.
Proof. unfold JS.length. rewrite length_app. cbn [List.length]. lia. Qed.

Lemma length_nonneg (l : list Question) : 0 <= JS.length l.
Proof. unfold JS.length. lia. Qed.

(** [NextQuestion] through the result card of the question after [pre]. *)
Lemma dispatch_next_last (pre : list Question) (cq : Question)
      (sc t : Z) (sel : option string) :
  qs = pre ++ [cq] ->
  dispatch NextQuestion (mkSession (Some qz) (JS.length pre) sc t sel true false)
  = mkSession (Some qz) (JS.length qs - 1) sc t sel true true.
Proof.
  intros E. pose proof (length_nonneg pre) as Hp.
  unfold dispatch, render.
  assert (Hph : phase (mkSession (Some qz) (JS.length pre) sc t sel true false)
                = Result).
  { apply phase_result. cbn. repeat split. lia. }
  cbn [quiz]. rewrite Hph, (current_middle pre [] cq) by exact E.
  cbn [offered step]. unfold nextQuestion. cbn [quiz JS.chain]. rewrite Hqs.
  cbn [currentQuestionIdx]. rewrite E, length_snoc.
  destruct (Z.ltb_spec (JS.length pre) (JS.length pre + 1 - 1)); [lia|].
  rewrite timerEffect_over by reflexivity.
  unfold setIsGameOver. cbn. f_equal. lia.
Qed.

Lemma dispatch_next_more (pre rest : list Question) (cq nq : Question)
      (sc t : Z) (sel : option string) :
  qs = pre ++ cq :: nq :: rest ->
  time_limit nq <> 0 ->
  dispatch NextQuestion (mkSession (Some qz) (JS.length pre) sc t sel true false)
  = mkSession (Some qz) (JS.length (pre ++ [cq])) sc (time_limit nq) None
              false false.
Proof.
  intros E Hl. pose proof (length_nonneg pre) as Hp.
  pose proof (length_nonneg rest) as Hr.
  unfold dispatch, render.
  assert (Hph : phase (mkSession (Some qz) (JS.length pre) sc t sel true false)
                = Result).
  { apply phase_result. cbn. repeat split. lia. }
  cbn [quiz]. rewrite Hph, (current_middle pre (nq :: rest) cq) by exact E.
  cbn [offered step]. unfold nextQuestion. cbn [quiz JS.chain]. rewrite Hqs.
  cbn [currentQuestionIdx].
  assert (Hlen : JS.length qs = JS.length pre + 1 + (1 + JS.length rest)).
  { rewrite E, length_middle. unfold JS.length. cbn [List.length]. lia. }
  rewrite Hlen.
  destruct (Z.ltb_spec (JS.length pre)
                       (JS.length pre + 1 + (1 + JS.length rest) - 1)); [|lia].
  assert (Hidx : JS.index qs (JS.length pre + 1) = Some nq).
  { rewrite E. rewrite <- (length_snoc pre cq).
    change (pre ++ cq :: nq :: rest) with (pre ++ [cq] ++ nq :: rest).
    rewrite app_assoc. apply index_middle. }
  rewrite Hidx. rewrite length_snoc.
  unfold timerEffect, timerArmed, timeoutDue. session_fields.
  destruct (Z.eqb_spec (time_limit nq) 0); [contradiction|].
  cbn [andb]. destruct (_ && _); reflexivity.
Qed.

Lemma dispatch_start (cq : Question) (rest : list Question) :
  qs = cq :: rest ->
  time_limit cq <> 0 ->
  dispatch Start (initial (Some qz))
  = mkSession (Some qz) (JS.length (@nil Question)) 0 (time_limit cq) None
              false false.
Proof.
  intros E Hl. unfold dispatch. cbn [render initial quiz phase
    currentQuestionIdx Z.eqb offered]. cbn.
  unfold timerEffect, startQuiz, questionAt. cbn. rewrite Hqs. cbn. rewrite E.
  cbn. destruct (Z.eqb_spec (time_limit cq) 0); [contradiction|].
  unfold timerArmed, timeoutDue. cbn.
  destruct (Z.eqb_spec (time_limit cq) 0); [contradiction|].
  destruct (0 <? time_limit cq); reflexivity.
Qed.

(** One idle round: the countdown runs out, then the player moves on. *)
Lemma idle_countdown (pre rest : list Question) (cq : Question) (sc : Z) :
  qs = pre ++ cq :: rest ->
  0 < time_limit cq ->
  runUi (repeat Tick (Z.to_nat (time_limit cq)))
        (mkSession (Some qz) (JS.length pre) sc (time_limit cq) None false false)
  = mkSession (Some qz) (JS.length pre) sc 0 None true false.
Proof.
  intros E Hl. pose proof (length_nonneg pre) as Hp.
  rewrite runUi_ticks.
  destruct (Z.to_nat (time_limit cq)) as [|n] eqn:En; [lia|].
  rewrite ticks_until_timeout.
  - unfold handleAnswer, handleAnswerFrom. cbn. reflexivity.
  - apply timerArmed_true. cbn. repeat split; lia.
  - cbn [timeLeft]. lia.
Qed.

Lemma idle_rounds (rest pre : list Question) (cq : Question) (sc : Z) :
  qs = pre ++ cq :: rest ->
  (forall x, In x (cq :: rest) -> 0 < time_limit x) ->
  runUi (flat_map idleRound (cq :: rest))
        (mkSession (Some qz) (JS.length pre) sc (time_limit cq) None false false)
  = mkSession (Some qz) (JS.length qs - 1) sc 0 None true true.
Proof.
  revert pre cq. induction rest as [|nq rest IH]; intros pre cq E Hpos.
  - cbn [flat_map]. rewrite app_nil_r. unfold idleRound.
    rewrite runUi_app, (idle_countdown pre [] cq sc E) by (apply Hpos; cbn; auto).
    cbn [runUi]. apply (dispatch_next_last pre cq). exact E.
  - change (flat_map idleRound (cq :: nq :: rest))
      with (idleRound cq ++ flat_map idleRound (nq :: rest)).
    rewrite runUi_app.
    change (idleRound cq)
      with (repeat Tick (Z.to_nat (time_limit cq)) ++ [NextQuestion]).
    rewrite runUi_app, (idle_countdown pre (nq :: rest) cq sc E)
      by (apply Hpos; cbn; auto).
    cbn [runUi].
    assert (Hn : 0 < time_limit nq) by (apply Hpos; cbn; auto).
    rewrite (dispatch_next_more pre rest cq nq sc 0 None E) by lia.
    apply IH.
    + rewrite E, <- app_assoc. reflexivity.
    + intros x Hx. apply Hpos. right. exact Hx.
Qed.

(** X11. A player who starts the quiz and never answers, letting every countdown
    run out and moving on each time, ends on the final screen with a score
    of 0, the last question shown and no option recorded. *)
Theorem idle_player_finishes_with_nothing :
  qs <> [] ->
  (forall x, In x qs -> 0 < time_limit x) ->
  runUi (Start :: flat_map idleRound qs) (initial (Some qz))
  = mkSession (Some qz) (JS.length qs - 1) 0 0 None true true.
Proof.
  intros Hne Hpos.
  assert (Hcons : exists cq rest, qs = cq :: rest).
  { clear Hqs Hpos. destruct qs as [|cq rest]; [contradiction | eauto]. }
  destruct Hcons as (cq & rest & E).
  assert (Hl : 0 < time_limit cq) by (apply Hpos; rewrite E; cbn; auto).
  cbn [runUi]. rewrite (dispatch_start cq rest E) by lia.
  rewrite E at 1. apply (idle_rounds rest [] cq 0); [exact E|].
  intros x Hx. apply Hpos. rewrite E. exact Hx.
Qed.

Lemma perfect_answer (pre rest : list Question) (cq : Question) (sc : Z) :
  qs = pre ++ cq :: rest ->
  time_limit cq <> 0 ->
  In (correct_option cq) answerButtons ->
  dispatch (SubmitAnswer (Some (correct_option cq)))
           (mkSession (Some qz) (JS.length pre) sc (time_limit cq) None
                      false false)
  = mkSession (Some qz) (JS.length pre) (sc + 1500) (time_limit cq)
              (Some (correct_option cq)) true false.
Proof.
  intros E Hl Hin. pose proof (length_nonneg pre) as Hp.
  unfold dispatch, render.
  assert (Hph : phase (mkSession (Some qz) (JS.length pre) sc (time_limit cq)
                                 None false false) = QuestionPhase).
  { apply phase_question. cbn. repeat split. lia. }
  cbn [quiz]. rewrite Hph, (current_middle pre rest cq) by exact E.
  cbn [offered].
  assert (Hoff : existsb (String.eqb (correct_option cq)) answerButtons = true).
  { apply existsb_exists. exists (correct_option cq).
    split; [exact Hin | apply String.eqb_refl]. }
  rewrite Hoff, step_submit.
  unfold handleAnswer, handleAnswerFrom. cbn [showResult].
  rewrite (current_middle pre rest cq) by exact E. cbn [option_map JS.strict_eq].
  rewrite String.eqb_refl. unfold points.
  rewrite (current_middle pre rest cq) by exact E. cbn [option_map JS.or_default].
  destruct (Z.eqb_spec (time_limit cq) 0); [contradiction|].
  cbn [timeLeft]. rewrite scoreFormula_full by exact Hl. reflexivity.
Qed.

Lemma perfect_rounds (rest pre : list Question) (cq : Question) (sc : Z) :
  qs = pre ++ cq :: rest ->
  (forall x, In x (cq :: rest) ->
             time_limit x <> 0 /\ In (correct_option x) answerButtons) ->
  let s := runUi (flat_map perfectRound (cq :: rest))
                 (mkSession (Some qz) (JS.length pre) sc (time_limit cq) None
                            false false) in
  phase s = GameOver /\
  score s = sc + 1500 * JS.length (cq :: rest) /\
  currentQuestionIdx s = JS.length qs - 1.
Proof.
  revert pre cq sc. induction rest as [|nq rest IH]; intros pre cq sc E Hok.
  - destruct (Hok cq (or_introl eq_refl)) as [Hl Hin].
    cbn [flat_map perfectRound app runUi].
    rewrite (perfect_answer pre [] cq sc E Hl Hin).
    rewrite (dispatch_next_last pre cq _ _ _ E).
    pose proof (length_nonneg pre).
    split; [apply phase_gameOver; cbn; split; [rewrite E, length_snoc; lia | reflexivity]|].
    split; reflexivity.
  - destruct (Hok cq (or_introl eq_refl)) as [Hl Hin].
    destruct (Hok nq (or_intror (or_introl eq_refl))) as [Hn _].
    change (flat_map perfectRound (cq :: nq :: rest))
      with (perfectRound cq ++ flat_map perfectRound (nq :: rest)).
    cbv zeta. rewrite runUi_app. cbn [perfectRound runUi].
    rewrite (perfect_answer pre (nq :: rest) cq sc E Hl Hin).
    rewrite (dispatch_next_more pre rest cq nq _ _ _ E Hn).
    assert (E' : qs = (pre ++ [cq]) ++ nq :: rest)
      by (rewrite E, <- app_assoc; reflexivity).
    destruct (IH (pre ++ [cq]) nq (sc + 1500) E') as (Hp & Hs & Hi).
    { intros x Hx. apply Hok. right. exact Hx. }
    split; [exact Hp|]. split; [|exact Hi].
    rewrite Hs. unfold JS.length. cbn [List.length]. lia.
Qed.

(** X12. A player who gives the correct option of every question at once ends on
    the final screen with 1500 points per question: the cap on the score of a
    session driven through the view is reached. *)
Theorem perfect_player_reaches_cap :
  qs <> [] ->
  (forall x, In x qs ->
             time_limit x <> 0 /\ In (correct_option x) answerButtons) ->
  let s := runUi (Start :: flat_map perfectRound qs) (initial (Some qz)) in
  phase s = GameOver /\
  score s = 1500 * JS.length qs /\
  currentQuestionIdx s = JS.length qs - 1.
Proof.
  intros Hne Hok.
  assert (Hcons : exists cq rest, qs = cq :: rest).
  { clear Hqs Hok. destruct qs as [|cq rest]; [contradiction | eauto]. }
  destruct Hcons as (cq & rest & E).
  destruct (Hok cq) as [Hl _]; [rewrite E; cbn; auto|].
  intros s.
  assert (Hsq : s = runUi (flat_map perfectRound (cq :: rest))
                          (mkSession (Some qz) (JS.length (@nil Question)) 0
                                     (time_limit cq) None false false)).
  { unfold s. cbn [runUi]. rewrite (dispatch_start cq rest E Hl).
    rewrite <- E. reflexivity. }
  destruct (perfect_rounds rest [] cq 0 E) as (Hp & Hs & Hi).
  { intros x Hx. apply Hok. rewrite E. exact Hx. }
  rewrite Hsq. split; [exact Hp|]. split; [|exact Hi].
  rewrite Hs. rewrite E. lia.
Qed.

End OnAQuiz.

Lemma idle_player_finishes_with_nothing_witness :
  runUi (Start :: flat_map idleRound [sampleQuestion "B" 20; sampleQuestion "C" 20])
        (initial (Some twoQuestions))
  = mkSession (Some twoQuestions)
              (JS.length [sampleQuestion "B" 20; sampleQuestion "C" 20] - 1)
              0 0 None true true.
Proof.
  apply (idle_player_finishes_with_nothing twoQuestions
           [sampleQuestion "B" 20; sampleQuestion "C" 20] eq_refl).
  - discriminate.
  - intros x [<- | [<- | []]]; reflexivity.
Defined.

Lemma perfect_player_reaches_cap_witness :
  let qs := [sampleQuestion "B" 20; sampleQuestion "C" 20] in
  let s := runUi (Start :: flat_map perfectRound qs) (initial (Some twoQuestions)) in
  phase s = GameOver /\
  score s = 1500 * JS.length qs /\
  currentQuestionIdx s = JS.length qs - 1.
Proof.
  apply (perfect_player_reaches_cap twoQuestions
           [sampleQuestion "B" 20; sampleQuestion "C" 20] eq_refl).
  - discriminate.
  - intros x [<- | [<- | []]]; (split; [discriminate | cbn; auto]).
Defined.

(** * The quiz creator form *)

Section CreatorForm.

Import Creator.

Lemma length_cons {A : Type} (x : A) (l : list A) :
  JS.length (x :: l) = 1 + JS.length l.
Proof. unfold JS.length. cbn [List.length]. lia. Qed.

Lemma length_app_Z {A : Type} (l l' : list A) :
  JS.length (l ++ l') = JS.length l + JS.length l'.
Proof. unfold JS.length. rewrite length_app. lia. Qed.

Lemma length_nonneg_Z {A : Type} (l : list A) : 0 <= JS.length l.
Proof. unfold JS.length. lia. Qed.

Lemma dense_cons (x : Slot) (l : list Slot) :
  dense (x :: l) <-> (exists d, x = Item d) /\ dense l.
Proof. unfold dense. apply Forall_cons_iff. Qed.

Lemma dense_app (l l' : list Slot) : dense (l ++ l') <-> dense l /\ dense l'.
Proof. unfold dense. apply Forall_app. Qed.

Lemma spread_dense (l : list Slot) : dense l -> spread l = l.
Proof.
  induction l as [|x l IH]; intros H; [reflexivity|].
  apply dense_cons in H. destruct H as [[d ->] Hl].
  unfold spread. cbn [map]. fold (spread l). rewrite IH by exact Hl. reflexivity.
Qed.

Lemma renders_dense (l : list Slot) : dense l -> renders l = true.
Proof.
  intros H. unfold renders. apply forallb_forall. intros x Hx.
  unfold dense in H. rewrite Forall_forall in H.
  destruct (H x Hx) as [d ->]. reflexivity.
Qed.

Lemma filterOut_outside (l : list Slot) (i index : Z) :
  dense l -> index < i \/ i + JS.length l <= index ->
  filterOut i index l = l.
Proof.
  revert i. induction l as [|x l IH]; intros i H Hout; [reflexivity|].
  apply dense_cons in H. destruct H as [[d ->] Hl].
  rewrite length_cons in Hout. pose proof (length_nonneg_Z l).
  cbn [filterOut]. destruct (Z.eqb_spec i index); [lia|].
  rewrite IH by (try assumption; lia). reflexivity.
Qed.

Lemma filterOut_middle (pre post : list Slot) (d : Draft) (i : Z) :
  dense pre -> dense post ->
  filterOut i (i + JS.length pre) (pre ++ Item d :: post) = pre ++ post.
Proof.
  revert i. induction pre as [|x pre IH]; intros i Hpre Hpost.
  - cbn [app filterOut]. change (JS.length (@nil Slot)) with 0.
    rewrite Z.add_0_r, Z.eqb_refl. apply filterOut_outside; [exact Hpost | lia].
  - apply dense_cons in Hpre. destruct Hpre as [[e ->] Hpre].
    pose proof (length_nonneg_Z pre). rewrite length_cons.
    cbn [app filterOut]. destruct (Z.eqb_spec i (i + (1 + JS.length pre))); [lia|].
    replace (i + (1 + JS.length pre)) with (i + 1 + JS.length pre) by lia.
    rewrite IH by assumption. reflexivity.
Qed.

Lemma replaceAt_middle (pre post : list Slot) (x v : Slot) :
  replaceAt (List.length pre) v (pre ++ x :: post) = pre ++ v :: post.
Proof.
  induction pre as [|y pre IH]; [reflexivity|].
  cbn [List.length app replaceAt]. rewrite IH. reflexivity.
Qed.

Lemma replaceAt_beyond (l : list Slot) (n : nat) (v : Slot) :
  (List.length l <= n)%nat ->
  replaceAt n v l = l ++ repeat Hole (n - List.length l) ++ [v].
Proof.
  revert n. induction l as [|y l IH]; intros n Hn.
  - cbn [replaceAt List.length app]. rewrite Nat.sub_0_r. reflexivity.
  - cbn [List.length] in Hn. destruct n as [|n]; [lia|].
    cbn [replaceAt List.length app Nat.sub]. rewrite IH by lia. reflexivity.
Qed.

Lemma removeQuestion_middle (pre post : list Slot) (d : Draft) :
  dense pre -> dense post -> pre ++ post <> [] ->
  removeQuestion (JS.length pre) (pre ++ Item d :: post) = pre ++ post.
Proof.
  intros Hpre Hpost Hne. unfold removeQuestion.
  rewrite length_app_Z, length_cons.
  pose proof (length_nonneg_Z pre). pose proof (length_nonneg_Z post).
  assert (Hpos : 0 < JS.length pre + JS.length post).
  { rewrite <- length_app_Z. unfold JS.length.
    destruct (pre ++ post); [contradiction | cbn [List.length]; lia]. }
  destruct (Z.ltb_spec 1 (JS.length pre + (1 + JS.length post))); [|lia].
  apply (filterOut_middle pre post d 0); assumption.
Qed.

Lemma removeQuestion_outside (l : list Slot) (index : Z) :
  dense l -> index < 0 \/ JS.length l <= index -> removeQuestion index l = l.
Proof.
  intros Hl Hout. unfold removeQuestion.
  destruct (1 <? JS.length l); [|reflexivity].
  apply filterOut_outside; [exact Hl | lia].
Qed.

Lemma updateQuestion_middle (pre post : list Slot) (d : Draft) (u : Update) :
  dense pre -> dense post ->
  updateQuestion (JS.length pre) u (pre ++ Item d :: post)
  = pre ++ Item (withField d u) :: post.
Proof.
  intros Hpre Hpost.
  assert (Hd : dense (pre ++ Item d :: post)).
  { apply dense_app. split; [exact Hpre|]. apply dense_cons. eauto. }
  unfold updateQuestion. rewrite spread_dense by exact Hd.
  unfold fieldsAt, assign. pose proof (length_nonneg_Z pre).
  unfold JS.index.
  destruct (Z.ltb_spec (JS.length pre) 0); [lia|].
  unfold JS.length. rewrite Nat2Z.id.
  rewrite nth_error_app2, Nat.sub_diag by lia. cbn [nth_error].
  apply replaceAt_middle.
Qed.

(** X13. Removing the question at a position of a form with several questions
    takes out that question and keeps the others in their order; the last
    remaining question cannot be removed, and an index outside the list
    removes nothing. *)
Theorem remove_question_effect :
  (forall (pre post : list Slot) (d : Draft),
      dense pre -> dense post -> pre ++ post <> [] ->
      removeQuestion (JS.length pre) (pre ++ Item d :: post) = pre ++ post) /\
  (forall (x : Slot) (index : Z), removeQuestion index [x] = [x]) /\
  (forall (l : list Slot) (index : Z),
      dense l -> index < 0 \/ JS.length l <= index ->
      removeQuestion index l = l).
Proof.
  split; [exact removeQuestion_middle|].
  split; [intros x index; reflexivity | exact removeQuestion_outside].
Qed.

Lemma remove_question_effect_witness :
  removeQuestion (JS.length [Item blankQuestion])
                 ([Item blankQuestion] ++ Item emptyDraft :: [Item blankQuestion])
  = [Item blankQuestion] ++ [Item blankQuestion].
Proof.
  apply (proj1 remove_question_effect
           [Item blankQuestion] [Item blankQuestion] emptyDraft).
  - repeat constructor; eexists; reflexivity.
  - repeat constructor; eexists; reflexivity.
  - discriminate.
Defined.

(** X14. Updating a field of the question at a position of the form changes that
    field of that question and nothing else.  An index beyond the end makes
    the array grow up to it, with holes in between and a question that has
    only the given field; a negative index changes nothing. *)
Theorem update_question_effect :
  (forall (pre post : list Slot) (d : Draft) (u : Update),
      dense pre -> dense post ->
      updateQuestion (JS.length pre) u (pre ++ Item d :: post)
      = pre ++ Item (withField d u) :: post) /\
  (forall (l : list Slot) (index : Z) (u : Update),
      dense l -> JS.length l <= index ->
      updateQuestion index u l
      = l ++ repeat Hole (Z.to_nat (index - JS.length l))
          ++ [Item (withField emptyDraft u)]) /\
  (forall (l : list Slot) (index : Z) (u : Update),
      dense l -> index < 0 -> updateQuestion index u l = l).
Proof.
  split; [exact updateQuestion_middle|]. split.
  - intros l index u Hl Hi. unfold updateQuestion.
    rewrite spread_dense by exact Hl.
    pose proof (length_nonneg_Z l). unfold fieldsAt, assign, JS.index.
    destruct (Z.ltb_spec index 0); [lia|].
    assert (Hn : nth_error l (Z.to_nat index) = None).
    { apply nth_error_None. unfold JS.length in Hi. lia. }
    rewrite Hn. rewrite replaceAt_beyond by (unfold JS.length in Hi; lia).
    do 3 f_equal. unfold JS.length. lia.
  - intros l index u Hl Hi. unfold updateQuestion, assign.
    destruct (Z.ltb_spec index 0); [|lia]. apply spread_dense. exact Hl.
Qed.

Lemma update_question_effect_witness :
  updateQuestion (JS.length [Item blankQuestion]) (SetCorrectOption "C")
                 ([Item blankQuestion] ++ Item blankQuestion :: [])
  = [Item blankQuestion]
      ++ Item (withField blankQuestion (SetCorrectOption "C")) :: [].
Proof.
  apply (proj1 update_question_effect
           [Item blankQuestion] [] blankQuestion (SetCorrectOption "C")).
  - repeat constructor; eexists; reflexivity.
  - constructor.
Defined.

(** X15. Adding a question and removing it again gives back the form as it was. *)
Theorem add_then_remove_last (l : list Slot) :
  dense l -> l <> [] ->
  removeQuestion (JS.length l) (addQuestion l) = l.
Proof.
  intros Hl Hne. unfold addQuestion. rewrite spread_dense by exact Hl.
  rewrite (removeQuestion_middle l [] blankQuestion Hl).
  - apply app_nil_r.
  - constructor.
  - rewrite app_nil_r. exact Hne.
Qed.

Lemma add_then_remove_last_witness :
  removeQuestion (JS.length initialQuestions) (addQuestion initialQuestions)
  = initialQuestions.
Proof.
  apply (add_then_remove_last initialQuestions).
  - repeat constructor; eexists; reflexivity.
  - discriminate.
Defined.

Lemma formDraft_blank : formDraft blankQuestion.
Proof.
  unfold formDraft. cbn. repeat split; try discriminate.
  exists LetterA. reflexivity.
Qed.

Lemma formDraft_withField (d : Draft) (u : Update) :
  formDraft d ->
  (exists v, u = SetQuestionText v) \/ (exists l v, u = setOption l v)
  \/ (exists l, u = SetCorrectOption (letterId l)) ->
  formDraft (withField d u).
Proof.
  intros (H1 & H2 & H3 & H4 & H5 & H6 & H7 & H8) [[v ->] | [(l & v & ->) | [l ->]]].
  - unfold formDraft. cbn. repeat split; try assumption. discriminate.
  - destruct l; unfold formDraft; cbn; repeat split; try assumption; discriminate.
  - unfold formDraft. cbn. repeat split; try assumption. eauto.
Qed.

Lemma formState_dense (l : list Slot) : formState l -> dense l.
Proof.
  intros [_ H]. unfold dense. eapply Forall_impl; [|exact H].
  intros x (d & -> & _). eauto.
Qed.

Lemma hasCard_split (l : list Slot) (idx : nat) :
  hasCard l idx = true ->
  exists pre d post, l = pre ++ Item d :: post /\ List.length pre = idx.
Proof.
  unfold hasCard. destruct (nth_error l idx) as [[| |d]|] eqn:E; try discriminate.
  intros _. destruct (nth_error_split l idx E) as (pre & post & -> & Hlen).
  eauto.
Qed.

Lemma formState_update (l : list Slot) (idx : nat) (u : Update) :
  formState l -> hasCard l idx = true ->
  (exists v, u = SetQuestionText v) \/ (exists l v, u = setOption l v)
  \/ (exists l, u = SetCorrectOption (letterId l)) ->
  formState (updateQuestion (Z.of_nat idx) u l).
Proof.
  intros Hf Hc Hu. pose proof (formState_dense l Hf) as Hd.
  destruct (hasCard_split l idx Hc) as (pre & d & post & -> & <-).
  apply dense_app in Hd. destruct Hd as [Hpre Hpost].
  apply dense_cons in Hpost. destruct Hpost as [_ Hpost].
  change (Z.of_nat (List.length pre)) with (JS.length pre).
  rewrite (updateQuestion_middle pre post d u Hpre Hpost).
  destruct Hf as [_ Hall]. apply Forall_app in Hall. destruct Hall as [Ha Hb].
  apply Forall_cons_iff in Hb. destruct Hb as [(d' & [= <-] & Hd') Hb].
  split; [destruct pre; discriminate|].
  apply Forall_app. split; [exact Ha|]. constructor; [|exact Hb].
  exists (withField d u). split; [reflexivity|].
  apply formDraft_withField; assumption.
Qed.

Lemma formStep_state (e : FormEvent) (l : list Slot) :
  formState l -> formState (formStep e l).
Proof.
  intros Hf. pose proof (formState_dense l Hf) as Hd.
  destruct e as [|idx|idx v|idx lt v|idx lt]; cbn [formStep].
  - rewrite renders_dense by exact Hd. unfold addQuestion.
    rewrite spread_dense by exact Hd. destruct Hf as [Hne Hall].
    split; [destruct l; discriminate|].
    apply Forall_app. split; [exact Hall|]. constructor; [|constructor].
    exists blankQuestion. split; [reflexivity | apply formDraft_blank].
  - destruct (hasCard l idx) eqn:Hc; [|exact Hf].
    destruct (hasCard_split l idx Hc) as (pre & d & post & -> & <-).
    apply dense_app in Hd. destruct Hd as [Hpre Hpost].
    apply dense_cons in Hpost. destruct Hpost as [_ Hpost].
    change (Z.of_nat (List.length pre)) with (JS.length pre).
    destruct Hf as [_ Hall]. apply Forall_app in Hall. destruct Hall as [Ha Hb].
    apply Forall_cons_iff in Hb. destruct Hb as [Hx Hb].
    destruct (pre ++ post) as [|y rest] eqn:E.
    + apply app_eq_nil in E. destruct E as [-> ->]. cbn [app].
      change (removeQuestion (JS.length []) [Item d]) with [Item d].
      split; [discriminate|]. constructor; [exact Hx | constructor].
    + rewrite (removeQuestion_middle pre post d Hpre Hpost)
        by (rewrite E; discriminate).
      split; [rewrite E; discriminate|]. apply Forall_app. auto.
  - destruct (hasCard l idx) eqn:Hc; [|exact Hf].
    apply formState_update; eauto.
  - destruct (hasCard l idx) eqn:Hc; [|exact Hf].
    apply formState_update; eauto.
  - destruct (hasCard l idx) eqn:Hc; [|exact Hf].
    apply formState_update; eauto.
Qed.

Lemma formRun_formState (es : list FormEvent) :
  formState (formRun es initialQuestions).
Proof.
  assert (H : forall l, formState l -> formState (formRun es l)).
  { induction es as [|e es IH]; intros l Hl; [exact Hl|].
    cbn [formRun]. apply IH, formStep_state, Hl. }
  apply H. split; [discriminate|]. constructor; [|constructor].
  exists blankQuestion. split; [reflexivity | apply formDraft_blank].
Qed.

(** X16. Whatever is done with the controls of the form, it always holds at
    least one question, and every question has its text and four options
    present, a correct option among A, B, C, D and a time limit of 20. *)
Theorem form_state_invariant (es : list FormEvent) :
  let l := formRun es initialQuestions in
  1 <= JS.length l /\
  Forall (fun x => exists d, x = Item d /\ formDraft d) l.
Proof.
  destruct (formRun_formState es) as [Hne Hall]. split; [|exact Hall].
  unfold JS.length. destruct (formRun es initialQuestions);
    [contradiction | cbn [List.length]; lia].
Qed.

End CreatorForm.

(** * The quiz store *)

Section QuizStore.

Import Server.

Lemma questionRow_inv (id quizId : Z) (q : option Creator.Draft) (r : QuestionRow) :
  questionRow id quizId q = Some r ->
  sameContent q r /\ qrow_id r = id /\ qrow_quiz_id r = quizId.
Proof.
  unfold questionRow. destruct q as [d|]; [|discriminate].
  destruct (Creator.draft_question_text d) eqn:E1; [|discriminate].
  destruct (Creator.draft_option_a d) eqn:E2; [|discriminate].
  destruct (Creator.draft_option_b d) eqn:E3; [|discriminate].
  destruct (Creator.draft_option_c d) eqn:E4; [|discriminate].
  destruct (Creator.draft_option_d d) eqn:E5; [|discriminate].
  destruct (Creator.draft_correct_option d) eqn:E6; [|discriminate].
  intros [= <-]. split; [|split; reflexivity].
  exists d. cbn. repeat split; assumption.
Qed.

Lemma questionRow_complete (id quizId : Z) (q : option Creator.Draft) :
  complete q = true -> exists r, questionRow id quizId q = Some r.
Proof.
  unfold complete, questionRow. destruct q as [d|]; [|discriminate].
  destruct (Creator.draft_question_text d); [|discriminate].
  destruct (Creator.draft_option_a d); [|discriminate].
  destruct (Creator.draft_option_b d); [|discriminate].
  destruct (Creator.draft_option_c d); [|discriminate].
  destruct (Creator.draft_option_d d); [|discriminate].
  destruct (Creator.draft_correct_option d); [|discriminate].
  eauto.
Qed.


Lemma insertQuestions_inv (quizId : Z) (body : list (option Creator.Draft)) :
  forall (rows : list QuestionRow) (seq : Z) (rows' : list QuestionRow) (seq' : Z),
    insertQuestions quizId body rows seq = Some (rows', seq') ->
    exists new,
      rows' = rows ++ new /\ seq' = seq + JS.length body /\
      Forall2 sameContent body new /\
      Forall (fun r => qrow_quiz_id r = quizId) new.
Proof.
  induction body as [|q body IH]; intros rows seq rows' seq' H.
  - cbn in H. injection H as <- <-. exists []. rewrite app_nil_r.
    change (JS.length (@nil (option Creator.Draft))) with 0.
    repeat split; try constructor. lia.
  - cbn [insertQuestions] in H.
    destruct (questionRow (seq + 1) quizId q) as [r|] eqn:Er; [|discriminate].
    destruct (IH _ _ _ _ H) as (new & -> & -> & Hc & Hq).
    destruct (questionRow_inv _ _ _ _ Er) as (Hs & _ & Hid).
    exists (r :: new). rewrite <- app_assoc. cbn [app].
    split; [reflexivity|]. split.
    + unfold JS.length. cbn [List.length]. lia.
    + split; constructor; assumption.
Qed.

Lemma insertQuestions_ok (quizId : Z) (body : list (option Creator.Draft)) :
  forallb complete body = true ->
  forall rows seq, exists res, insertQuestions quizId body rows seq = Some res.
Proof.
  induction body as [|q body IH]; intros H rows seq; [cbn; eauto|].
  cbn [forallb] in H. apply andb_true_iff in H. destruct H as [Hq Hb].
  cbn [insertQuestions].
  destruct (questionRow_complete (seq + 1) quizId q Hq) as [r ->].
  apply IH. exact Hb.
Qed.


Lemma find_snoc {A : Type} (f : A -> bool) (l : list A) (x : A) :
  find f (l ++ [x])
  = match find f l with
    | Some y => Some y
    | None => if f x then Some x else None
    end.
Proof.
  induction l as [|y l IH]; [reflexivity|].
  cbn [app find]. destruct (f y); [reflexivity | exact IH].
Qed.

Lemma find_none {A : Type} (f : A -> bool) (l : list A) :
  (forall x, In x l -> f x = false) -> find f l = None.
Proof.
  induction l as [|y l IH]; intros H; [reflexivity|].
  cbn [find]. rewrite (H y) by (left; reflexivity).
  apply IH. intros x Hx. apply H. right. exact Hx.
Qed.

Lemma filter_none {A : Type} (f : A -> bool) (l : list A) :
  (forall x, In x l -> f x = false) -> filter f l = [].
Proof.
  induction l as [|y l IH]; intros H; [reflexivity|].
  cbn [filter]. rewrite (H y) by (left; reflexivity).
  apply IH. intros x Hx. apply H. right. exact Hx.
Qed.

Lemma filter_all {A : Type} (f : A -> bool) (l : list A) :
  (forall x, In x l -> f x = true) -> filter f l = l.
Proof.
  induction l as [|y l IH]; intros H; [reflexivity|].
  cbn [filter]. rewrite (H y) by (left; reflexivity).
  rewrite IH; [reflexivity|]. intros x Hx. apply H. right. exact Hx.
Qed.

Lemma postQuiz_created (now title description topic : string)
      (body : list (option Creator.Draft)) (db db' : Db) (id : Z) :
  postQuiz now title description topic body db = (db', Created id) ->
  id = quizSeq db + 1 /\
  exists new,
    db' = mkDb (quizRows db ++ [mkQuizRow id title description topic now])
               (questionRows db ++ new) id
               (questionSeq db + JS.length body) /\
    Forall2 sameContent body new /\
    Forall (fun r => qrow_quiz_id r = id) new.
Proof.
  unfold postQuiz.
  destruct (insertQuestions _ body _ _) as [[rows seq]|] eqn:E;
    [|discriminate].
  intros [= <- <-]. split; [reflexivity|].
  destruct (insertQuestions_inv _ _ _ _ _ _ E) as (new & -> & -> & Hc & Hq).
  exists new. auto.
Qed.

Lemma postQuiz_cases (now title description topic : string)
      (body : list (option Creator.Draft)) (db : Db) :
  postQuiz now title description topic body db = (db, Failed) \/
  exists db',
    postQuiz now title description topic body db
    = (db', Created (quizSeq db + 1)).
Proof.
  unfold postQuiz.
  destruct (insertQuestions _ body _ _) as [[rows seq]|]; eauto.
Qed.

Lemma consistent_post (now title description topic : string)
      (body : list (option Creator.Draft)) (db : Db) :
  consistent db ->
  consistent (fst (postQuiz now title description topic body db)).
Proof.
  intros Hc.
  destruct (postQuiz_cases now title description topic body db)
    as [E | [db' E]]; rewrite E; cbn [fst]; [exact Hc|].
  destruct (postQuiz_created _ _ _ _ _ _ _ _ E) as (_ & new & -> & _ & Hq).
  destruct Hc as [H1 H2]. split; cbn [quizRows questionRows quizSeq].
  - intros r Hr. apply in_app_or in Hr. destruct Hr as [Hr | [<- | []]].
    + specialize (H1 r Hr). lia.
    + cbn. lia.
  - intros x Hx. apply in_app_or in Hx. destruct Hx as [Hx | Hx].
    + specialize (H2 x Hx). lia.
    + rewrite Forall_forall in Hq. rewrite (Hq x Hx). lia.
Qed.



Lemma getQuiz_appended (db : Db) (row : QuizRow) (new : list QuestionRow)
      (quizSeq' questionSeq' : Z) :
  consistent db ->
  row_id row = quizSeq db + 1 ->
  Forall (fun r => qrow_quiz_id r = row_id row) new ->
  getQuiz (row_id row)
          (mkDb (quizRows db ++ [row]) (questionRows db ++ new)
                quizSeq' questionSeq')
  = Found row new.
Proof.
  intros [H1 H2] Hid Hq. unfold getQuiz. cbn [quizRows questionRows].
  rewrite find_snoc, find_none.
  - rewrite Z.eqb_refl. f_equal.
    rewrite filter_app, filter_none, filter_all; [reflexivity| |].
    + intros x Hx. rewrite Forall_forall in Hq. rewrite (Hq x Hx).
      apply Z.eqb_refl.
    + intros x Hx. specialize (H2 x Hx). apply Z.eqb_neq. lia.
  - intros r Hr. specialize (H1 r Hr). apply Z.eqb_neq. lia.
Qed.

(** X18. A quiz that has been created is fetched back under the id of the answer:
    with the title, description and topic sent, and with the questions sent,
    in the order sent, each with its texts and correct option and with the
    time limit [time_limit || 20]. *)
Theorem post_then_get
        (now title description topic : string)
        (body : list (option Creator.Draft)) (db db' : Db) (id : Z) :
  consistent db ->
  postQuiz now title description topic body db = (db', Created id) ->
  exists rows,
    getQuiz id db' = Found (mkQuizRow id title description topic now) rows /\
    Forall2 sameContent body rows.
Proof.
  intros Hc E.
  destruct (postQuiz_created _ _ _ _ _ _ _ _ E) as (Hid & new & -> & Hs & Hq).
  exists new. split; [|exact Hs].
  apply (getQuiz_appended db (mkQuizRow id title description topic now) new);
    assumption.
Qed.

Lemma post_then_get_witness :
  exists rows,
    getQuiz 1 (fst (postQuiz "now" "t" "d" "General"
                             [Some Creator.blankQuestion] emptyDb))
    = Found (mkQuizRow 1 "t" "d" "General" "now") rows /\
    Forall2 sameContent [Some Creator.blankQuestion] rows.
Proof.
  apply (post_then_get "now" "t" "d" "General"
           [Some Creator.blankQuestion] emptyDb
           (fst (postQuiz "now" "t" "d" "General"
                          [Some Creator.blankQuestion] emptyDb)) 1).
  - split; intros x [].
  - reflexivity.
Defined.

(** X19. Creating a quiz, or failing to, changes nothing of what is fetched under
    any other id. *)
Theorem post_keeps_other_quizzes
        (now title description topic : string)
        (body : list (option Creator.Draft)) (db : Db) (id : Z) :
  id <> quizSeq db + 1 ->
  getQuiz id (fst (postQuiz now title description topic body db))
  = getQuiz id db.
Proof.
  intros Hid.
  destruct (postQuiz_cases now title description topic body db)
    as [E | [db' E]]; rewrite E; cbn [fst]; [reflexivity|].
  destruct (postQuiz_created _ _ _ _ _ _ _ _ E) as (_ & new & -> & _ & Hq).
  unfold getQuiz. cbn [quizRows questionRows].
  rewrite find_snoc. cbn [row_id].
  destruct (Z.eqb_spec (quizSeq db + 1) id) as [Heq|_]; [congruence|].
  destruct (find _ (quizRows db)); [|reflexivity].
  rewrite filter_app, (filter_none _ new), app_nil_r; [reflexivity|].
  intros x Hx. rewrite Forall_forall in Hq. rewrite (Hq x Hx).
  apply Z.eqb_neq. lia.
Qed.

Lemma post_keeps_other_quizzes_witness :
  let db := fst (postQuiz "now" "t" "d" "General"
                          [Some Creator.blankQuestion] emptyDb) in
  getQuiz 1 (fst (postQuiz "later" "u" "e" "General" [] db)) = getQuiz 1 db.
Proof.
  apply (post_keeps_other_quizzes "later" "u" "e" "General" []
           (fst (postQuiz "now" "t" "d" "General"
                          [Some Creator.blankQuestion] emptyDb)) 1).
  vm_compute. discriminate.
Defined.

End QuizStore.

(** * From the form to the player *)

Section EndToEnd.

Import Server.

Lemma formDraft_complete (d : Creator.Draft) :
  Creator.formDraft d -> complete (Some d) = true.
Proof.
  intros (_ & H1 & H2 & H3 & H4 & H5 & [l H6] & _).
  unfold complete, questionRow.
  destruct (Creator.draft_question_text d); [|contradiction].
  destruct (Creator.draft_option_a d); [|contradiction].
  destruct (Creator.draft_option_b d); [|contradiction].
  destruct (Creator.draft_option_c d); [|contradiction].
  destruct (Creator.draft_option_d d); [|contradiction].
  rewrite H6. reflexivity.
Qed.

Lemma letterId_button (l : Creator.Letter) :
  In (Creator.letterId l) answerButtons.
Proof. destruct l; cbn; auto. Qed.

Lemma formState_body (l : list Creator.Slot) :
  Creator.formState l ->
  Creator.toBody l <> [] /\
  forallb complete (Creator.toBody l) = true /\
  Forall (fun q => exists d, q = Some d /\ Creator.formDraft d)
         (Creator.toBody l).
Proof.
  intros [Hne Hall]. split; [destruct l; [contradiction | discriminate]|].
  clear Hne. induction Hall as [|x l (d & -> & Hd) _ IH]; [split; constructor|].
  destruct IH as [IH1 IH2]. cbn [Creator.toBody map forallb].
  split.
  - rewrite (formDraft_complete d Hd). exact IH1.
  - constructor; [eauto | exact IH2].
Qed.

Lemma formDraft_row (q : option Creator.Draft) (r : QuestionRow) :
  (exists d, q = Some d /\ Creator.formDraft d) -> sameContent q r ->
  qrow_time_limit r = 20 /\ In (qrow_correct_option r) answerButtons.
Proof.
  intros (d & -> & (_ & _ & _ & _ & _ & _ & [l Hl] & Ht))
         (d' & [= <-] & _ & _ & _ & _ & _ & Hc & Htl).
  split.
  - rewrite Htl, Ht. reflexivity.
  - rewrite Hl in Hc. injection Hc as <-. apply letterId_button.
Qed.

(** X20. Whatever has been done with the controls of the creator form, submitting
    it succeeds; the quiz fetched back under the new id has at least one
    question, every question has a time limit of 20 and a correct option
    among the four answer buttons, and however that quiz is then played
    through the view the render never meets a missing question. *)
Theorem form_quiz_is_playable
        (es : list Creator.FormEvent) (now title description topic : string)
        (db : Db) :
  consistent db ->
  let body := Creator.toBody (Creator.formRun es Creator.initialQuestions) in
  exists db' row rows,
    postQuiz now title description topic body db
    = (db', Created (quizSeq db + 1)) /\
    getQuiz (quizSeq db + 1) db' = Found row rows /\
    rows <> [] /\
    Forall (fun r => qrow_time_limit r = 20
                     /\ In (qrow_correct_option r) answerButtons) rows /\
    (forall ops : list Op,
        render (runUi ops (initial (Some (toQuiz row rows)))) <> RenderError).
Proof.
  intros Hc body.
  destruct (formState_body _ (formRun_formState es)) as (Hne & Hall & Hform).
  fold body in Hne, Hall, Hform.
  destruct (insertQuestions_ok (quizSeq db + 1) body Hall
              (questionRows db) (questionSeq db)) as [[rows0 seq0] Hins].
  assert (Hpost : postQuiz now title description topic body db
                  = (mkDb (quizRows db
                             ++ [mkQuizRow (quizSeq db + 1) title description
                                           topic now])
                          rows0 (quizSeq db + 1) seq0,
                     Created (quizSeq db + 1))).
  { unfold postQuiz. rewrite Hins. reflexivity. }
  destruct (postQuiz_created _ _ _ _ _ _ _ _ Hpost)
    as (_ & rows & Hdb & Hsame & Hq).
  assert (Hget : getQuiz (quizSeq db + 1)
                         (mkDb (quizRows db
                                  ++ [mkQuizRow (quizSeq db + 1) title
                                                description topic now])
                               rows0 (quizSeq db + 1) seq0)
                 = Found (mkQuizRow (quizSeq db + 1) title description topic now)
                         rows).
  { rewrite Hdb.
    apply (getQuiz_appended db
             (mkQuizRow (quizSeq db + 1) title description topic now) rows);
      [exact Hc | reflexivity | exact Hq]. }
  exists (mkDb (quizRows db
                  ++ [mkQuizRow (quizSeq db + 1) title description topic now])
               rows0 (quizSeq db + 1) seq0),
    (mkQuizRow (quizSeq db + 1) title description topic now), rows.
  split; [exact Hpost|]. split; [exact Hget|].
  assert (Hrows : rows <> []).
  { intros ->. inversion Hsame as [Hb|]. apply Hne. symmetry. exact Hb. }
  assert (Hgood : Forall (fun r => qrow_time_limit r = 20
                                   /\ In (qrow_correct_option r) answerButtons)
                         rows).
  { clear Hget Hrows Hne Hall Hins Hpost Hdb Hq.
    induction Hsame as [|q r body' rows' Hqr _ IH]; [constructor|].
    apply Forall_cons_iff in Hform. destruct Hform as [Hq Hrest].
    constructor; [apply (formDraft_row q r Hq Hqr) | apply IH; exact Hrest]. }
  split; [exact Hrows|]. split; [exact Hgood|].
  intros ops.
  assert (Hqs : map toQuestion rows <> [])
    by (destruct rows; [contradiction | discriminate]).
  apply (ui_render_ok
           (toQuiz (mkQuizRow (quizSeq db + 1) title description topic now) rows)
           (map toQuestion rows)).
  apply runUi_ui; [exact Hqs|]. apply initial_ui; [reflexivity | exact Hqs].
Qed.

Lemma form_quiz_is_playable_witness :
  let body := Creator.toBody
                (Creator.formRun [Creator.ClickAdd; Creator.ClickRemove 0]
                                 Creator.initialQuestions) in
  exists db' row rows,
    postQuiz "now" "t" "d" "General" body emptyDb
    = (db', Created (quizSeq emptyDb + 1)) /\
    getQuiz (quizSeq emptyDb + 1) db' = Found row rows /\
    rows <> [] /\
    Forall (fun r => qrow_time_limit r = 20
                     /\ In (qrow_correct_option r) answerButtons) rows /\
    (forall ops : list Op,
        render (runUi ops (initial (Some (toQuiz row rows)))) <> RenderError).
Proof.
  apply (form_quiz_is_playable
           [Creator.ClickAdd; Creator.ClickRemove 0]
           "now" "t" "d" "General" emptyDb).
  split; intros x [].
Defined.

(** X21. The creation endpoint accepts an empty question list: the quiz is stored
    and fetched back without questions, and starting it in the player leads
    to a render that meets a missing question. *)
Theorem empty_quiz_is_stored
        (now title description topic : string) (db : Db) :
  consistent db ->
  let row := mkQuizRow (quizSeq db + 1) title description topic now in
  exists db',
    postQuiz now title description topic [] db
    = (db', Created (quizSeq db + 1)) /\
    getQuiz (quizSeq db + 1) db' = Found row [] /\
    render (initial (Some (toQuiz row []))) = LobbyView /\
    render (dispatch Start (initial (Some (toQuiz row [])))) = RenderError.
Proof.
  intros Hc row.
  assert (Hpost : postQuiz now title description topic [] db
                  = (mkDb (quizRows db ++ [row]) (questionRows db)
                          (quizSeq db + 1) (questionSeq db),
                     Created (quizSeq db + 1))) by reflexivity.
  eexists. split; [exact Hpost|]. split; [|split; reflexivity].
  rewrite <- (app_nil_r (questionRows db)).
  apply (getQuiz_appended db row []); [exact Hc | reflexivity | constructor].
Qed.

Lemma empty_quiz_is_stored_witness :
  let row := mkQuizRow (quizSeq emptyDb + 1) "t" "d" "General" "now" in
  exists db',
    postQuiz "now" "t" "d" "General" [] emptyDb
    = (db', Created (quizSeq emptyDb + 1)) /\
    getQuiz (quizSeq emptyDb + 1) db' = Found row [] /\
    render (initial (Some (toQuiz row []))) = LobbyView /\
    render (dispatch Start (initial (Some (toQuiz row [])))) = RenderError.
Proof.
  apply (empty_quiz_is_stored "now" "t" "d" "General" emptyDb).
  split; intros x [].
Defined.

(** ** Start-up seeding *)

Lemma insertSeedRows_inv (quizId : Z)
      (qs : list (string * string * string * string * string * string)) :
  forall (rows : list QuestionRow) (seq : Z),
  exists new,
    insertSeedRows quizId qs rows seq = (rows ++ new, seq + JS.length qs) /\
    List.length new = List.length qs /\
    Forall (fun r => qrow_quiz_id r = quizId /\ qrow_time_limit r = 20) new.
Proof.
  induction qs as [|q qs IH]; intros rows seq.
  - exists []. cbn. rewrite app_nil_r, Z.add_0_r. repeat split. constructor.
  - cbn [insertSeedRows].
    destruct (IH (rows ++ [seedRow (seq + 1) quizId q]) (seq + 1))
      as (new & -> & Hlen & Hall).
    exists (seedRow (seq + 1) quizId q :: new).
    rewrite <- app_assoc. cbn [app]. split; [f_equal|split].
    + unfold JS.length. cbn [List.length]. lia.
    + cbn [List.length]. rewrite Hlen. reflexivity.
    + constructor; [|exact Hall].
      destruct q as [[[[[t a] b] c] d] o]. split; reflexivity.
Qed.

Lemma insertSeed_spec (now : string) (db : Db) :
  exists new,
    insertSeed now db
    = mkDb (quizRows db
              ++ [mkQuizRow (quizSeq db + 1) "Umumiy Bilimlar"
                    "O'zbekiston va dunyo haqida 15 ta qiziqarli savol!"
                    "General" now])
           (questionRows db ++ new) (quizSeq db + 1) (questionSeq db + 15) /\
    List.length new = 15%nat /\
    Forall (fun r => qrow_quiz_id r = quizSeq db + 1 /\ qrow_time_limit r = 20)
           new.
Proof.
  unfold insertSeed.
  destruct (insertSeedRows_inv (quizSeq db + 1) seedQuestions
              (questionRows db) (questionSeq db)) as (new & -> & Hlen & Hall).
  exists new. split; [reflexivity|]. split; [exact Hlen | exact Hall].
Qed.

Lemma getQuiz_seeded (now : string) (db : Db) :
  consistent db ->
  exists row rows,
    getQuiz (quizSeq db + 1) (insertSeed now db) = Found row rows /\
    row_id row = quizSeq db + 1 /\
    List.length rows = 15%nat /\
    Forall (fun r => qrow_time_limit r = 20) rows.
Proof.
  intros [H1 H2]. destruct (insertSeed_spec now db) as (new & -> & Hlen & Hall).
  eexists. exists new. unfold getQuiz. cbn [quizRows questionRows].
  rewrite find_snoc, find_none.
  - cbn [row_id]. rewrite Z.eqb_refl.
    rewrite filter_app, filter_none, filter_all.
    + split; [reflexivity|]. split; [reflexivity|]. split; [exact Hlen|].
      eapply Forall_impl; [|exact Hall]. intros r [_ Hr]. exact Hr.
    + intros x Hx. rewrite Forall_forall in Hall.
      destruct (Hall x Hx) as [-> _]. apply Z.eqb_refl.
    + intros x Hx. specialize (H2 x Hx). apply Z.eqb_neq. lia.
  - intros r Hr. specialize (H1 r Hr). apply Z.eqb_neq. lia.
Qed.

Lemma insertSeed_nonempty (now : string) (db : Db) :
  JS.length (quizRows (insertSeed now db)) = JS.length (quizRows db) + 1.
Proof.
  destruct (insertSeed_spec now db) as (new & -> & _).
  cbn [quizRows]. unfold JS.length. rewrite length_app. cbn. lia.
Qed.

(** X22. Start-up of server.ts seeds an empty store once: a second start-up
    changes nothing, a store that holds a quiz is left alone, and on an
    empty store the seed quiz is fetched with its 15 questions, each with
    the default time limit of 20. *)
Theorem seed_once (now later : string) (db : Db) :
  seed later (seed now db) = seed now db /\
  (quizRows db <> [] -> seed now db = db) /\
  (consistent db -> quizRows db = [] ->
   exists row rows,
     getQuiz (quizSeq db + 1) (seed now db) = Found row rows /\
     List.length rows = 15%nat /\
     Forall (fun r => qrow_time_limit r = 20) rows).
Proof.
  assert (Hkeep : forall t d, quizRows d <> [] -> seed t d = d).
  { intros t d Hne. unfold seed. unfold JS.length.
    destruct (quizRows d); [contradiction | reflexivity]. }
  split; [|split].
  - unfold seed at 2. destruct (Z.eqb_spec (JS.length (quizRows db)) 0) as [E|E].
    + unfold seed. rewrite insertSeed_nonempty, E. reflexivity.
    + unfold seed. destruct (Z.eqb_spec (JS.length (quizRows db)) 0);
        [contradiction | reflexivity].
  - apply Hkeep.
  - intros Hc He. unfold seed. rewrite He. cbn [JS.length List.length Z.of_nat Z.eqb].
    destruct (getQuiz_seeded now db Hc) as (row & rows & Hg & _ & Hl & Ht).
    eauto.
Qed.

Lemma seed_once_witness :
  exists row rows,
    getQuiz (quizSeq emptyDb + 1) (seed "now" emptyDb) = Found row rows /\
    List.length rows = 15%nat /\
    Forall (fun r => qrow_time_limit r = 20) rows.
Proof.
  apply (proj2 (proj2 (seed_once "now" "later" emptyDb))).
  - split; intros x [].
  - reflexivity.
Defined.

(** X23. Start-up of the other server file: with at most two quizzes in the
    store, every quiz that was there, created ones included, is gone and the
    seed quiz sits under a new id, one above the last id handed out; with
    more than two quizzes the store is left alone. *)
Theorem reset_seed_wipes_small_stores (now : string) (db : Db) :
  (JS.length (quizRows db) <= 2 ->
   (forall id, id <= quizSeq db -> getQuiz id (resetSeed now db) = NotFound) /\
   quizSeq (resetSeed now db) = quizSeq db + 1 /\
   exists row rows,
     getQuiz (quizSeq db + 1) (resetSeed now db) = Found row rows /\
     List.length rows = 15%nat) /\
  (2 < JS.length (quizRows db) -> resetSeed now db = db).
Proof.
  split; intros H; unfold resetSeed.
  - destruct (Z.leb_spec (JS.length (quizRows db)) 2); [|lia].
    set (wiped := mkDb [] [] (quizSeq db) (questionSeq db)).
    assert (Hw : consistent wiped) by (split; intros x []).
    split; [|split].
    + intros id Hid. destruct (insertSeed_spec now wiped) as (new & -> & _).
      unfold getQuiz. cbn [quizRows wiped app find row_id quizSeq].
      destruct (Z.eqb_spec (quizSeq db + 1) id); [lia | reflexivity].
    + destruct (insertSeed_spec now wiped) as (new & -> & _). reflexivity.
    + destruct (getQuiz_seeded now wiped Hw) as (row & rows & Hg & _ & Hl & _).
      eauto.
  - destruct (Z.leb_spec (JS.length (quizRows db)) 2); [lia | reflexivity].
Qed.

Lemma reset_seed_wipes_small_stores_witness :
  let db := fst (postQuiz "now" "t" "d" "General"
                          [Some Creator.blankQuestion] emptyDb) in
  (forall id, id <= quizSeq db -> getQuiz id (resetSeed "later" db) = NotFound) /\
  quizSeq (resetSeed "later" db) = quizSeq db + 1 /\
  exists row rows,
    getQuiz (quizSeq db + 1) (resetSeed "later" db) = Found row rows /\
    List.length rows = 15%nat.
Proof.
  apply (proj1 (reset_seed_wipes_small_stores "later"
                  (fst (postQuiz "now" "t" "d" "General"
                                 [Some Creator.blankQuestion] emptyDb)))).
  vm_compute. discriminate.
Defined.

Lemma consistent_insertSeed (now : string) (db : Db) :
  consistent db -> consistent (insertSeed now db).
Proof.
  intros [H1 H2]. destruct (insertSeed_spec now db) as (new & -> & _ & Hall).
  split; cbn [quizRows questionRows quizSeq].
  - intros r Hr. apply in_app_or in Hr. destruct Hr as [Hr | [<- | []]].
    + specialize (H1 r Hr). lia.
    + cbn. lia.
  - intros x Hx. apply in_app_or in Hx. destruct Hx as [Hx | Hx].
    + specialize (H2 x Hx). lia.
    + rewrite Forall_forall in Hall. destruct (Hall x Hx) as [-> _]. lia.
Qed.

Lemma consistent_storeStep (o : StoreOp) (db : Db) :
  consistent db -> consistent (storeStep o db).
Proof.
  intros Hc. destruct o as [now title description topic body|now|now];
    cbn [storeStep].
  - apply consistent_post. exact Hc.
  - unfold seed. destruct (_ =? _); [apply consistent_insertSeed|]; exact Hc.
  - unfold resetSeed. destruct (_ <=? _); [|exact Hc].
    apply consistent_insertSeed. split; intros x [].
Qed.

(** X24. In every store reached from the empty one by creation requests and
    start-ups, no quiz has an id above the last id handed out and no question
    belongs to such an id; fetching an id that has not been handed out yet
    answers not-found. *)
Theorem store_ids_handed_out (os : list StoreOp) :
  let db := storeRun os emptyDb in
  consistent db /\
  (forall id, quizSeq db < id -> getQuiz id db = NotFound).
Proof.
  assert (H : forall db, consistent db -> consistent (storeRun os db)).
  { induction os as [|o os IH]; intros db Hc; [exact Hc|].
    cbn [storeRun]. apply IH, consistent_storeStep, Hc. }
  intros db. assert (Hc : consistent db) by (apply H; split; intros x []).
  split; [exact Hc|]. intros id Hid. unfold getQuiz.
  rewrite find_none; [reflexivity|].
  intros r Hr. destruct Hc as [H1 _]. specialize (H1 r Hr).
  apply Z.eqb_neq. lia.
Qed.

End EndToEnd.
